(** * Duplicate file finder: a shallow embedding of [duplicate_finder.py]

    The development follows the script function by function:
    [get_file_hash], [get_file_info], [find_duplicates],
    [display_duplicates], [interactive_delete] and [main].

    - The filesystem is a finite map from paths to nodes; what [os.stat],
      [open]/[read] and [os.remove] answer for a path is data of the node.
    - [Path.glob] and [Path.resolve] are supplied by the world (directory
      traversal is a capability of the platform, not of the script).
    - [hashlib] and the string builtins ([strip], [lower], [upper], [int],
      timestamp rendering) are interfaces (type classes); small instances
      for evaluation are given in [Module Sample].
    - Everything written to the terminal is kept as a list of structured
      [event]s: printed lines carry the values that the f-strings
      interpolate ([format_size] is floating-point presentation, so a line
      carries the integer handed to it). *)

From Stdlib Require Import ZArith String Ascii List Lia DecimalString DecimalZ.
From stdpp Require Import base decidable option list gmap strings sorting.
Import ListNotations.

Local Open Scope string_scope.
Local Open Scope Z_scope.
Local Open Scope list_scope.

(** ** Interfaces of the Python runtime *)

Abbreviation path := string (only parsing).
Definition bytes := list Byte.byte.

(** A [hashlib] hash object: [hashlib.md5()], [.update(chunk)],
    [.hexdigest()]. *)
Record hasher := Hasher {
  h_state : Type;
  h_new : h_state;
  h_update : h_state -> bytes -> h_state;
  h_hexdigest : h_state -> string
}.

Class Hashlib := {
  hashlib_md5 : hasher;
  hashlib_sha256 : hasher
}.

(** The builtins the script calls on strings and timestamps.
    [int_of_str s = None] stands for [int(s)] raising [ValueError];
    [strftime t] is
    [datetime.fromtimestamp(t).strftime('%Y-%m-%d %H:%M:%S')].
    Of their behaviour only this is used: the empty string strips and
    lowers to itself. *)
Class Builtins := {
  str_strip : string -> string;
  str_lower : string -> string;
  str_upper : string -> string;
  int_of_str : string -> option Z;
  strftime : Z -> string;
  str_strip_empty : str_strip "" = "";
  str_lower_empty : str_lower "" = ""
}.

(** ** The filesystem *)

Inductive kind := Regular | Directory | Special.

Record stat_result := { st_size : Z; st_mtime : Z }.

(** What successive [f.read(chunk_size)] calls return on an opened file:
    a chunk, the empty bytes object at end of file, or an [IOError]
    (also raised when [open] itself fails). *)
Inductive read_stream :=
| REof
| RChunk (chunk : bytes) (rest : read_stream)
| RError.

Record node := {
  n_kind : kind;
  n_stat : option stat_result;  (* [None]: [stat] raises [OSError] *)
  n_data : read_stream;
  n_unlink : bool               (* [os.remove] is permitted *)
}.

Record world := {
  files : gmap path node;
  glob : path -> string -> list path;
  resolve : path -> path
}.

#[global] Instance kind_eq_dec : EqDecision kind.
Proof. solve_decision. Defined.

Definition path_exists (w : world) (p : path) : bool :=
  bool_decide (is_Some (files w !! p)).

Definition is_dir (w : world) (p : path) : bool :=
  match files w !! p with
  | Some n => bool_decide (n_kind n = Directory)
  | None => false
  end.

Definition is_file (w : world) (p : path) : bool :=
  match files w !! p with
  | Some n => bool_decide (n_kind n = Regular)
  | None => false
  end.

(** [os.stat(p)] / [p.stat()]; [None] is [OSError]. *)
Definition os_stat (w : world) (p : path) : option stat_result :=
  files w !! p ≫= n_stat.

(** [open(p, 'rb')] followed by the reads. *)
Definition open_rb (w : world) (p : path) : read_stream :=
  match files w !! p with
  | Some n => n_data n
  | None => RError
  end.

(** [os.remove(p)]: the world without [p], or [None] for [OSError]
    (missing file, directory, permission denied). *)
Definition os_remove (w : world) (p : path) : option world :=
  match files w !! p with
  | Some n =>
      if bool_decide (n_kind n = Directory) then None
      else if n_unlink n
           then Some {| files := delete p (files w);
                        glob := glob w; resolve := resolve w |}
           else None
  | None => None
  end.

(** [Path.name]: the last component of a path. *)
Fixpoint name_aux (acc : string) (p : string) : string :=
  match p with
  | EmptyString => acc
  | String c p' =>
      if Ascii.eqb c "/" then name_aux EmptyString p'
      else name_aux (String.append acc (String c EmptyString)) p'
  end.

Definition name (p : path) : string := name_aux EmptyString p.

(** [s.startswith(t)]. *)
Definition startswith (s t : string) : bool := String.prefix t s.

(** ** Terminal output and observable effects *)

Inductive line :=
(* get_file_hash *)
| LErrorReading (filepath : path)
(* find_duplicates *)
| LErrNotExist (directory : path)
| LErrNotDir (directory : path)
| LScanning (directory : path)
| LOptions (recursive : bool) (min_size : Z) (hash_algo : string)
| LFoundFiles (file_count : Z)
| LNoPotentialDuplicates
| LHashing (files_to_hash : Z)
| LProgress (hashed files_to_hash : Z)
(* display_duplicates *)
| LNoDuplicates
| LRule
| LFoundSets (total_sets total_files : Z)
| LSet (idx : Z)
| LHash (prefix : string)
| LSizeEach (file_size : Z)
| LWasted (wasted_space : Z)
| LCopies (n : Z)
| LFiles
| LFile (filepath : path)
| LModified (modified : string)
| LBlank
| LTotalWasted (total_wasted : Z)
(* interactive_delete *)
| LInteractiveMode
| LInteractiveHelp
| LSetOf (idx total : Z)
| LSize (file_size : Z)
| LOption (i : Z) (filepath : path)
| LPromptKeep (n : Z)
| LDeletionCancelled
| LSkipping
| LWillDelete (n : Z)
| LBullet (f : path)
| LPromptConfirm
| LDeleted (f : path)
| LErrorDeleting (f : path)
| LCancelledForSet
| LInvalidChoice (n : Z)
| LInvalidInput (n : Z).

Inductive event :=
| Print (l : line)      (* [print(...)], or the prompt of [input(...)] *)
| Open (p : path)       (* [open(p, 'rb')]: the content of [p] is read *)
| Remove (p : path).    (* [os.remove(p)] is attempted *)

Inductive exn := IndexError | EOFError.

Inductive outcome (A : Type) :=
| Return (a : A)
| Raise (e : exn).
Arguments Return {A} a.
Arguments Raise {A} e.

(** ** Insertion-ordered dictionaries of lists ([defaultdict(list)]) *)

Section Defaultdict.
Context {K V : Type} `{EqDecision K}.

(** [d[k].append(v)]: a new key goes last, as in a Python dict. *)
Fixpoint dd_append (k : K) (v : V) (d : list (K * list V)) : list (K * list V) :=
  match d with
  | [] => [(k, [v])]
  | (k', vs) :: d' =>
      if decide (k = k') then (k', vs ++ [v]) :: d'
      else (k', vs) :: dd_append k v d'
  end.

(** [d.values()] flattened. *)
Definition dd_values (d : list (K * list V)) : list V := concat (map snd d).
(** A property of (key, member) pairs that holds throughout [d]. *)
Definition dd_Forall (P : K -> V -> Prop) (d : list (K * list V)) : Prop :=
  forall k l x, (k, l) ∈ d -> x ∈ l -> P k x.
End Defaultdict.

(** [len(l)] as a Python integer. *)
Definition len {A} (l : list A) : Z := Z.of_nat (length l).

(** [enumerate(l, start)]. *)
Fixpoint enumerate {A} (start : Z) (l : list A) : list (Z * A) :=
  match l with
  | [] => []
  | x :: l' => (start, x) :: enumerate (start + 1) l'
  end.

(** [sum(...)] over integers. *)
Definition sum_of (l : list Z) : Z := fold_right Z.add 0 l.

Abbreviation size_map := (list (Z * list path)) (only parsing).
Abbreviation duplicates := (list (string * list path)) (only parsing).

Section DuplicateFinder.
Context `{Hashlib} `{Builtins}.

(** ** get_file_hash *)

(** [while chunk := f.read(chunk_size): hash_func.update(chunk)],
    then [hexdigest()]; [None] when a read raises. *)
Fixpoint read_loop (hash_func : hasher) (st : h_state hash_func)
    (f : read_stream) : option string :=
  match f with
  | REof => Some (h_hexdigest hash_func st)
  | RChunk [] _ => Some (h_hexdigest hash_func st)
  | RChunk chunk rest => read_loop hash_func (h_update hash_func st chunk) rest
  | RError => None
  end.

Definition hash_of (w : world) (filepath : path) (hash_algo : string) : option string :=
  let hash_func := if decide (hash_algo = "md5") then hashlib_md5 else hashlib_sha256 in
  read_loop hash_func (h_new hash_func) (open_rb w filepath).

Definition get_file_hash (w : world) (filepath : path) (hash_algo : string)
    : list event * option string :=
  match hash_of w filepath hash_algo with
  | Some d => ([Open filepath], Some d)
  | None => ([Open filepath; Print (LErrorReading filepath)], None)
  end.

(** ** get_file_info *)

Record file_info := { size : Z; modified : string }.

Definition get_file_info (w : world) (filepath : path) : file_info :=
  match os_stat w filepath with
  | Some st => {| size := st_size st; modified := strftime (st_mtime st) |}
  | None => {| size := 0; modified := "Unknown" |}
  end.

(** ** find_duplicates *)

(** One iteration of the first pass over [directory.glob(pattern)]. *)
Definition scan_step (w : world) (min_size : Z)
    (acc : size_map * Z) (filepath : path) : size_map * Z :=
  let '(sm, file_count) := acc in
  if is_file w filepath then
    match os_stat w filepath with
    | Some st =>
        let file_size := st_size st in
        if min_size <=? file_size
        then (dd_append file_size filepath sm, file_count + 1)
        else acc
    | None => acc
    end
  else acc.

Definition size_pass (w : world) (min_size : Z) (paths : list path) : size_map * Z :=
  fold_left (scan_step w min_size) paths ([], 0).

Definition count_files_to_hash (sm : size_map) : Z :=
  sum_of (map (fun b => len (snd b)) (filter (fun b => 1 < len (snd b)) sm)).

Record hash_state := {
  hash_map : duplicates;
  hashed : Z;
  log : list event
}.

(** [if file_hash:] — [None] and the empty string are falsy. *)
Definition truthy (file_hash : option string) : bool :=
  match file_hash with
  | Some d => negb (String.eqb d "")
  | None => false
  end.

(** The body of the inner loop of the second pass. *)
Definition hash_file (w : world) (hash_algo : string) (files_to_hash : Z)
    (st : hash_state) (filepath : path) : hash_state :=
  let '(evs, file_hash) := get_file_hash w filepath hash_algo in
  match file_hash with
  | Some d =>
      if truthy file_hash then
        let hashed' := hashed st + 1 in
        {| hash_map := dd_append d filepath (hash_map st);
           hashed := hashed';
           log := log st ++ evs ++
                  (if hashed' mod 50 =? 0
                   then [Print (LProgress hashed' files_to_hash)] else []) |}
      else
        {| hash_map := hash_map st; hashed := hashed st; log := log st ++ evs |}
  | None =>
      {| hash_map := hash_map st; hashed := hashed st; log := log st ++ evs |}
  end.

(** The body of the outer loop: only buckets with more than one path. *)
Definition hash_bucket (w : world) (hash_algo : string) (files_to_hash : Z)
    (st : hash_state) (bucket : Z * list path) : hash_state :=
  if 1 <? len (snd bucket)
  then fold_left (hash_file w hash_algo files_to_hash) (snd bucket) st
  else st.

Definition hash_pass (w : world) (hash_algo : string) (files_to_hash : Z)
    (sm : size_map) : hash_state :=
  fold_left (hash_bucket w hash_algo files_to_hash) sm
    {| hash_map := []; hashed := 0; log := [] |}.

(** [{h: files for h, files in hash_map.items() if len(files) > 1}]. *)
Definition keep_duplicates (hm : duplicates) : duplicates :=
  filter (fun e => 1 < len (snd e)) hm.

(** The [size_map] that [find_duplicates] builds for a valid root. *)
Definition size_buckets (w : world) (directory : path) (recursive : bool)
    (min_size : Z) : size_map :=
  let pattern := if recursive then "**/*" else "*" in
  fst (size_pass w min_size (glob w (resolve w directory) pattern)).

Definition find_duplicates (w : world) (directory : path) (recursive : bool)
    (min_size : Z) (hash_algo : string) : list event * duplicates :=
  let directory := resolve w directory in
  if negb (path_exists w directory) then
    ([Print (LErrNotExist directory)], [])
  else if negb (is_dir w directory) then
    ([Print (LErrNotDir directory)], [])
  else
    let out1 := [Print (LScanning directory);
                 Print (LOptions recursive min_size (str_upper hash_algo))] in
    let pattern := if recursive then "**/*" else "*" in
    let '(sm, file_count) := size_pass w min_size (glob w directory pattern) in
    let out2 := [Print (LFoundFiles file_count)] in
    let files_to_hash := count_files_to_hash sm in
    if files_to_hash =? 0 then
      (out1 ++ out2 ++ [Print LNoPotentialDuplicates], [])
    else
      let st := hash_pass w hash_algo files_to_hash sm in
      (out1 ++ out2 ++ [Print (LHashing files_to_hash)] ++ log st,
       keep_duplicates (hash_map st)).

(** ** display_duplicates *)

(** The lines printed for one set, given its first member. *)
Definition set_lines (w : world) (idx : Z) (file_hash : string)
    (filepaths : list path) (file_size wasted_space : Z) : list event :=
  [Print (LSet idx);
   Print (LHash (substring 0 16 file_hash));
   Print (LSizeEach file_size);
   Print (LWasted wasted_space);
   Print (LCopies (len filepaths));
   Print LFiles]
  ++ concat (map (fun filepath =>
                    let info := get_file_info w filepath in
                    [Print (LFile filepath); Print (LModified (modified info))])
                 filepaths)
  ++ [Print LBlank].

(** The [for idx, (file_hash, filepaths) in enumerate(...)] loop;
    [filepaths[0]] raises [IndexError] on an empty list. *)
Fixpoint display_loop (w : world) (idx : Z) (sets : duplicates)
    (total_wasted : Z) : list event * outcome Z :=
  match sets with
  | [] => ([], Return total_wasted)
  | (file_hash, filepaths) :: sets' =>
      match filepaths with
      | [] => ([], Raise IndexError)
      | first :: _ =>
          let file_info := get_file_info w first in
          let file_size := size file_info in
          let wasted_space := file_size * (len filepaths - 1) in
          let '(evs, r) :=
            display_loop w (idx + 1) sets' (total_wasted + wasted_space) in
          (set_lines w idx file_hash filepaths file_size wasted_space ++ evs, r)
      end
  end.

Definition display_duplicates (w : world) (dups : duplicates)
    : list event * outcome unit :=
  match dups with
  | [] => ([Print LNoDuplicates], Return tt)
  | _ =>
      let total_sets := len dups in
      let total_files := sum_of (map (fun e => len (snd e)) dups) in
      let header := [Print LRule; Print (LFoundSets total_sets total_files);
                     Print LRule] in
      match display_loop w 1 dups 0 with
      | (evs, Return total_wasted) =>
          (header ++ evs ++
           [Print LRule; Print (LTotalWasted total_wasted); Print LRule],
           Return tt)
      | (evs, Raise e) => (header ++ evs, Raise e)
      end
  end.

(** ** interactive_delete *)

(** How a loop is left: control goes on after it ([break], or the
    iteration is over), the function returns from inside it, or an
    exception escapes. *)
Inductive flow := Next | Quit | Raised (e : exn).

(** [for f in files_to_delete: try: os.remove(f) ...]. *)
Fixpoint delete_files (w : world) (files_to_delete : list path)
    : list event * world :=
  match files_to_delete with
  | [] => ([], w)
  | f :: rest =>
      match os_remove w f with
      | Some w' =>
          let '(evs, w'') := delete_files w' rest in
          (Remove f :: Print (LDeleted f) :: evs, w'')
      | None =>
          let '(evs, w'') := delete_files w rest in
          (Remove f :: Print (LErrorDeleting f) :: evs, w'')
      end
  end.

(** [[f for i, f in enumerate(filepaths) if i != keep_idx]]. *)
Definition files_to_delete_of (filepaths : list path) (keep_idx : Z) : list path :=
  map snd (filter (fun e => fst e ≠ keep_idx) (enumerate 0 filepaths)).

(** What is printed from the prompt for a choice up to the prompt for
    the confirmation, once a valid index was entered. *)
Definition announce (n : Z) (files_to_delete : list path) : list event :=
  Print (LPromptKeep n) :: Print (LWillDelete (len files_to_delete))
  :: map (fun f => Print (LBullet f)) files_to_delete
  ++ [Print LPromptConfirm].

(** The [while True] loop of one set, reading answers from [stdin];
    [input] on exhausted input raises [EOFError]. *)
Fixpoint choice_loop (w : world) (filepaths : list path) (stdin : list string)
    : list event * flow * world * list string :=
  let prompt := Print (LPromptKeep (len filepaths)) in
  match stdin with
  | [] => ([prompt], Raised EOFError, w, [])
  | answer :: stdin' =>
      let choice := str_lower (str_strip answer) in
      if decide (choice = "q") then
        ([prompt; Print LDeletionCancelled], Quit, w, stdin')
      else if decide (choice = "s") then
        ([prompt; Print LSkipping], Next, w, stdin')
      else
        match int_of_str choice with
        | Some n =>
            let keep_idx := n - 1 in
            if (0 <=? keep_idx) && (keep_idx <? len filepaths) then
              let files_to_delete := files_to_delete_of filepaths keep_idx in
              let will := announce (len filepaths) files_to_delete in
              match stdin' with
              | [] => (will, Raised EOFError, w, [])
              | answer2 :: stdin'' =>
                  let confirm := str_lower (str_strip answer2) in
                  if decide (confirm = "y") then
                    let '(evs, w') := delete_files w files_to_delete in
                    (will ++ evs, Next, w', stdin'')
                  else
                    (will ++ [Print LCancelledForSet], Next, w, stdin'')
              end
            else
              let '(evs, r, w', rest) := choice_loop w filepaths stdin' in
              (prompt :: Print (LInvalidChoice (len filepaths)) :: evs, r, w', rest)
        | None =>
            let '(evs, r, w', rest) := choice_loop w filepaths stdin' in
            (prompt :: Print (LInvalidInput (len filepaths)) :: evs, r, w', rest)
        end
  end.

(** What is shown for a set before its prompt. *)
Definition present (w : world) (idx total : Z) (first : path)
    (filepaths : list path) : list event :=
  [Print (LSetOf idx total); Print (LSize (size (get_file_info w first)))]
  ++ concat (map (fun e =>
                    let info := get_file_info w (snd e) in
                    [Print (LOption (fst e) (snd e));
                     Print (LModified (modified info))])
                 (enumerate 1 filepaths)).

(** The [for idx, (file_hash, filepaths) in enumerate(...)] loop. *)
Fixpoint delete_loop (w : world) (idx total : Z) (sets : duplicates)
    (stdin : list string) : list event * flow * world * list string :=
  match sets with
  | [] => ([], Next, w, stdin)
  | (file_hash, filepaths) :: sets' =>
      match filepaths with
      | [] => ([Print (LSetOf idx total)], Raised IndexError, w, stdin)
      | first :: _ =>
          let shown := present w idx total first filepaths in
          let '(evs, exit, w', stdin') := choice_loop w filepaths stdin in
          match exit with
          | Next =>
              let '(evs', r, w'', stdin'') :=
                delete_loop w' (idx + 1) total sets' stdin' in
              (shown ++ evs ++ evs', r, w'', stdin'')
          | Quit => (shown ++ evs, Quit, w', stdin')
          | Raised e => (shown ++ evs, Raised e, w', stdin')
          end
      end
  end.

(** What the caller of a function sees of the way its body was left. *)
Definition returned (f : flow) : outcome unit :=
  match f with
  | Next | Quit => Return tt
  | Raised e => Raise e
  end.

Definition interactive_delete (w : world) (dups : duplicates)
    (stdin : list string) : list event * outcome unit * world * list string :=
  match dups with
  | [] => ([], Return tt, w, stdin)
  | _ =>
      let '(evs, r, w', stdin') := delete_loop w 1 (len dups) dups stdin in
      (Print LInteractiveMode :: Print LInteractiveHelp :: evs,
       returned r, w', stdin')
  end.

(** ** main *)

(** The parsed command line. *)
Record args := {
  arg_directory : path;
  arg_no_recursive : bool;
  arg_min_size : Z;
  arg_hash : string;
  arg_delete : bool
}.

Definition main (w : world) (a : args) (stdin : list string)
    : list event * outcome unit * world * list string :=
  let '(evs1, dups) :=
    find_duplicates w (arg_directory a) (negb (arg_no_recursive a))
      (arg_min_size a) (arg_hash a) in
  match display_duplicates w dups with
  | (evs2, Raise e) => (evs1 ++ evs2, Raise e, w, stdin)
  | (evs2, Return _) =>
      if arg_delete a && bool_decide (dups ≠ []) then
        let '(evs3, r, w', stdin') := interactive_delete w dups stdin in
        (evs1 ++ evs2 ++ evs3, r, w', stdin')
      else (evs1 ++ evs2, Return tt, w, stdin)
  end.

End DuplicateFinder.

(** ** Vocabulary of the statements *)

Section Vocabulary.
Context `{Hashlib} `{Builtins}.
Implicit Types (w : world) (p q : path) (sm : size_map) (st : hash_state).
Implicit Types (dups : duplicates) (evs : list event).

(** What the first pass has checked of a path filed under size [s]. *)
Definition sized w (min_size : Z) (paths : list path) (s : Z) p : Prop :=
  p ∈ paths /\ is_file w p = true /\
  (exists sr, os_stat w p = Some sr /\ st_size sr = s) /\ min_size <= s.

(** The paths handed to the second pass. *)
Definition candidates sm : list path :=
  dd_values (filter (fun b => 1 < len b.2) sm).

(** [p] is hashed to a digest that passes [if file_hash:]. *)
Definition hashes w (hash_algo : string) p : Prop :=
  truthy (hash_of w p hash_algo) = true.

#[global] Instance hashes_dec w a p : Decision (hashes w a p).
Proof. unfold hashes. apply _. Defined.

(** The state of the second pass once the paths [seen] have been
    visited. *)
Record hash_inv w (a : string) (seen : list path) st : Prop := {
  inv_digest : dd_Forall (fun d p => hash_of w p a = Some d /\ d ≠ "") (hash_map st);
  inv_keys : NoDup (hash_map st).*1;
  inv_values : dd_values (hash_map st) ≡ₚ filter (hashes w a) seen;
  inv_open : forall p, Open p ∈ log st <-> p ∈ seen;
  inv_error : forall p, Print (LErrorReading p) ∈ log st <->
                        p ∈ seen /\ hash_of w p a = None
}.

(** The two guards at the head of [find_duplicates]. *)
Definition valid_root w (directory : path) : bool :=
  path_exists w (resolve w directory) && is_dir w (resolve w directory).

Definition is_print (e : event) : Prop := exists l, e = Print l.

(** The size [os.stat] reports for a path, if any. *)
Definition stat_size w p : option Z := st_size <$> os_stat w p.


(** The exclusion rule, as the specification words it: no member of a
    returned set is a directory or has a name that starts with a dot. *)
Definition no_dirs_no_dotfiles w (dups : duplicates) : Prop :=
  forall h l p, (h, l) ∈ dups -> p ∈ l ->
    is_dir w p = false /\ startswith (name p) "." = false.

(** The number of candidates whose hashing fails with an I/O error. *)
Definition read_failures w (dir : path) (rec : bool) (min_size : Z) (a : string) : nat :=
  length (filter (fun p => hash_of w p a = None)
                 (candidates (size_buckets w dir rec min_size))).

(** Failures surfaced as a count, as the specification words it: the
    caller obtains the number of read failures from what
    [find_duplicates] returns. *)
Definition surfaces_failure_count (count : duplicates -> nat) w
    (dir : path) (rec : bool) (min_size : Z) (a : string) : Prop :=
  count (snd (find_duplicates w dir rec min_size a)) = read_failures w dir rec min_size a.

(** The wasted bytes of one set as the specification words it: the size
    of the first member times the number of members less one. *)
Definition spec_set_wasted w (filepaths : list path) : Z :=
  match filepaths with
  | first :: _ => size (get_file_info w first) * (len filepaths - 1)
  | [] => 0
  end.

Definition spec_total_wasted w dups : Z :=
  sum_of (map (fun e => spec_set_wasted w e.2) dups).

Definition is_total_line (e : event) : Prop := exists t, e = Print (LTotalWasted t).

(** Failing with an error, as the specification words it: the run ends
    in an exception. *)
Definition ends_in_error (r : list event * outcome unit * world * list string) : Prop :=
  exists e, r.1.1.2 = Raise e.

(** An answer as the script compares it: [input(...).strip().lower()]. *)
Definition normal (answer : string) : string := str_lower (str_strip answer).

Definition aborts (answer : string) : Prop := normal answer = "q".
Definition skips (answer : string) : Prop := normal answer = "s".
Definition affirmative (answer : string) : Prop := normal answer = "y".

(** The answer chooses to keep member [n] (counted from 1). *)
Definition keeps (n : Z) (answer : string) : Prop :=
  normal answer ≠ "q" /\ normal answer ≠ "s" /\ int_of_str (normal answer) = Some n.

(** The delete attempts of a trace, in order. *)
Definition removes evs : list path :=
  omap (fun e => match e with Remove p => Some p | _ => None end) evs.

(** A trace followed by the rest of a run. *)
Definition after evs (r : list event * flow * world * list string)
    : list event * flow * world * list string :=
  (evs ++ r.1.1.1, r.1.1.2, r.1.2, r.2).

End Vocabulary.

(** ** Sample instances of the runtime interfaces

    Small executable stand-ins, used to run the model on concrete trees:
    an additive checksum in place of the hash algorithms and ASCII
    versions of the string builtins. *)

Module Sample.

Definition hex_digit (n : N) : ascii :=
  match n with
  | 0%N => "0" | 1%N => "1" | 2%N => "2" | 3%N => "3" | 4%N => "4"
  | 5%N => "5" | 6%N => "6" | 7%N => "7" | 8%N => "8" | 9%N => "9"
  | 10%N => "a" | 11%N => "b" | 12%N => "c" | 13%N => "d" | 14%N => "e"
  | _ => "f"
  end%char.

Fixpoint hex (digits : nat) (n : N) : string :=
  match digits with
  | O => EmptyString
  | S d => String.append (hex d (n / 16)%N) (String (hex_digit (n mod 16)%N) EmptyString)
  end.

Definition add_bytes (st : N) (chunk : bytes) : N :=
  fold_left (fun a b => (a + Byte.to_N b)%N) chunk st.

(** A checksum: the sum of all bytes, rendered on [digits] hex digits. *)
Definition checksum (digits : nat) : hasher :=
  {| h_state := N; h_new := 0%N; h_update := add_bytes;
     h_hexdigest := fun st => hex digits st |}.

#[export] Instance hashlib : Hashlib :=
  {| hashlib_md5 := checksum 2; hashlib_sha256 := checksum 4 |}.

Definition is_space (c : ascii) : bool :=
  let n := N_of_ascii c in
  ((9 <=? n) && (n <=? 13) || (n =? 32))%N.

Fixpoint lstrip (s : string) : string :=
  match s with
  | String c s' => if is_space c then lstrip s' else s
  | EmptyString => EmptyString
  end.

Fixpoint rstrip (s : string) : string :=
  match s with
  | String c s' =>
      match rstrip s' with
      | EmptyString => if is_space c then EmptyString else String c EmptyString
      | t => String c t
      end
  | EmptyString => EmptyString
  end.

Definition strip (s : string) : string := rstrip (lstrip s).

Definition lower_char (c : ascii) : ascii :=
  let n := N_of_ascii c in
  if ((65 <=? n) && (n <=? 90))%N then ascii_of_N (n + 32) else c.

Definition upper_char (c : ascii) : ascii :=
  let n := N_of_ascii c in
  if ((97 <=? n) && (n <=? 122))%N then ascii_of_N (n - 32) else c.

Fixpoint map_string (f : ascii -> ascii) (s : string) : string :=
  match s with
  | String c s' => String (f c) (map_string f s')
  | EmptyString => EmptyString
  end.

Fixpoint digits_value (acc : Z) (s : string) : option Z :=
  match s with
  | EmptyString => Some acc
  | String c s' =>
      let n := N_of_ascii c in
      if ((48 <=? n) && (n <=? 57))%N
      then digits_value (10 * acc + Z.of_N (n - 48)) s'
      else None
  end.

(** [int(s)] on an optional sign followed by ASCII digits. *)
Definition parse_int (s : string) : option Z :=
  match s with
  | EmptyString => None
  | String "-" (String c s') => Z.opp <$> digits_value 0 (String c s')
  | String "+" (String c s') => digits_value 0 (String c s')
  | String "-" EmptyString | String "+" EmptyString => None
  | _ => digits_value 0 s
  end.

#[export] Instance builtins : Builtins :=
  {| str_strip := strip;
     str_lower := map_string lower_char;
     str_upper := map_string upper_char;
     int_of_str := parse_int;
     strftime := fun t => NilZero.string_of_int (Z.to_int t);
     str_strip_empty := eq_refl;
     str_lower_empty := eq_refl |}.

(** *** Sample trees *)

Definition regular (sz : Z) (data : bytes) : node :=
  {| n_kind := Regular;
     n_stat := Some {| st_size := sz; st_mtime := 0 |};
     n_data := RChunk data REof;
     n_unlink := true |}.

Definition unreadable (sz : Z) : node :=
  {| n_kind := Regular;
     n_stat := Some {| st_size := sz; st_mtime := 0 |};
     n_data := RError;
     n_unlink := true |}.

Definition dir : node :=
  {| n_kind := Directory;
     n_stat := Some {| st_size := 4096; st_mtime := 0 |};
     n_data := RError;
     n_unlink := false |}.

(** A tree rooted at [/d] holding the given entries; [glob] lists them
    in the given order. *)
Definition tree (entries : list (path * node)) : world :=
  {| files := <["/d" := dir]> (list_to_map entries);
     glob := fun _ _ => map fst entries;
     resolve := fun p => p |}.

Definition b (s : string) : bytes := list_byte_of_string s.

(** Four files: [A] and [B] alike, [C] of the same size but other
    content, [D] alone in its size; and a subdirectory. *)
Definition tree_abcd : world :=
  tree [("/d/A", regular 10 (b "0123456789"));
        ("/d/B", regular 10 (b "0123456789"));
        ("/d/C", regular 10 (b "abcdefghij"));
        ("/d/D", regular 20 (b "01234567890123456789"));
        ("/d/sub", dir)].


(** Two identical files whose names start with a dot. *)
Definition tree_hidden : world :=
  tree [("/d/.x", regular 3 (b "abc")); ("/d/.y", regular 3 (b "abc"))].

(** A 2-member size bucket in which one read fails, or both. *)
Definition tree_fail_one : world :=
  tree [("/d/A", unreadable 10); ("/d/B", regular 10 (b "0123456789"))].

Definition tree_fail_two : world :=
  tree [("/d/A", unreadable 10); ("/d/B", unreadable 10)].

(** Three pairs of identical files. *)
Definition tree_pairs : world :=
  tree [("/d/a1", regular 3 (b "abc")); ("/d/a2", regular 3 (b "abc"));
        ("/d/b1", regular 4 (b "wxyz")); ("/d/b2", regular 4 (b "wxyz"));
        ("/d/c1", regular 5 (b "hello")); ("/d/c2", regular 5 (b "hello"))].

(** Three identical files of 100 bytes. *)
Definition tree_triple : world :=
  let data := repeat Byte.x41 100 in
  tree [("/d/1", regular 100 data); ("/d/2", regular 100 data);
        ("/d/3", regular 100 data)].

End Sample.

(** ** [file_organizer.py]: the category of an extension *)

Definition FILE_CATEGORIES : list (string * list string) :=
  [("Images", [".jpg"; ".jpeg"; ".png"; ".gif"; ".bmp"; ".svg"; ".webp"; ".ico"; ".tiff"]);
   ("Documents", [".pdf"; ".doc"; ".docx"; ".txt"; ".rtf"; ".odt"; ".xls"; ".xlsx";
                  ".ppt"; ".pptx"; ".csv"]);
   ("Videos", [".mp4"; ".avi"; ".mkv"; ".mov"; ".wmv"; ".flv"; ".webm"; ".m4v"]);
   ("Audio", [".mp3"; ".wav"; ".flac"; ".aac"; ".ogg"; ".wma"; ".m4a"]);
   ("Archives", [".zip"; ".rar"; ".7z"; ".tar"; ".gz"; ".bz2"; ".xz"]);
   ("Code", [".py"; ".js"; ".java"; ".cpp"; ".c"; ".html"; ".css"; ".php"; ".rb";
             ".go"; ".rs"; ".ts"]);
   ("Executables", [".exe"; ".msi"; ".dmg"; ".pkg"; ".deb"; ".rpm"; ".app"]);
   ("Others", [])].

(** [for category, extensions in table.items(): if ext in extensions:
    return category]; [None] when the loop ends without returning. *)
Fixpoint first_category (file_extension : string)
    (table : list (string * list string)) : option string :=
  match table with
  | [] => None
  | (category, extensions) :: table' =>
      if bool_decide (file_extension ∈ extensions) then Some category
      else first_category file_extension table'
  end.

(** The operations of [pathlib], [os] and [shutil] that [organize_files]
    relies on. [mkdir_exist_ok w p = None] stands for
    [p.mkdir(exist_ok=True)] raising; [shutil_move] answers the files
    after the call and whether it returned ([true]) or raised. *)
Class Pathlib := {
  path_suffix : path -> string;
  path_stem : path -> string;
  joinpath : path -> string -> path;
  path_parent : path -> path;
  str_of_int : Z -> string;
  iterdir : world -> path -> list path;
  mkdir_exist_ok : world -> path -> option world;
  shutil_move : world -> path -> path -> world * bool
}.

Inductive org_line :=
| OErrNotExist (directory : path)
| OErrNotDir (directory : path)
| OScanning (dry_run : bool) (directory : path)
| ONoFiles
| OFound (n : Z)
| OPlanned (category : string) (source_name : string)
| OSummary
| OCount (category : string) (count : Z)
| OOrganizing
| OMoved (source_name : string) (category : string)
| OErrorMoving (source_name : string)
| OComplete
| ODryRunNote.

Inductive org_event :=
| OPrint (l : org_line)
| Mkdir (p : path)                (* [p.mkdir(exist_ok=True)] *)
| Move (source dest : path).      (* [shutil.move(source, dest)] *)

(** How [organize_files] is left: it returns, or [mkdir] raised. *)
Inductive org_exit := Finished | MkdirRaised.

(** [stats[category] += 1] on a [defaultdict(int)]. *)
Fixpoint di_incr (k : string) (d : list (string * Z)) : list (string * Z) :=
  match d with
  | [] => [(k, 1)]
  | (k', n) :: d' =>
      if decide (k = k') then (k', n + 1) :: d' else (k', n) :: di_incr k d'
  end.

(** The order of [sorted(stats.items())]: by category, then by count. *)
Definition item_le (a b : string * Z) : Prop :=
  String.le a.1 b.1 /\ (a.1 = b.1 -> a.2 <= b.2).

#[global] Instance item_le_dec : RelDecision item_le.
Proof. intros a b. unfold item_le. apply _. Defined.

Section Organizer.
Context `{Builtins} `{Pathlib}.

Definition get_category (file_extension : string) : string :=
  let file_extension := str_lower file_extension in
  match first_category file_extension FILE_CATEGORIES with
  | Some category => category
  | None => "Others"
  end.

(** [f"{stem}_{counter}{suffix}"] for [original_dest]. *)
Definition conflict_name (original_dest : path) (counter : Z) : string :=
  path_stem original_dest +:+ "_" +:+ str_of_int counter +:+ path_suffix original_dest.

(** [while dest_path.exists(): ...]; [None] when [fuel] iterations did
    not end the loop. *)
Fixpoint free_dest (fuel : nat) (w : world) (dest_folder original_dest : path)
    (counter : Z) (dest_path : path) : option path :=
  match fuel with
  | O => None
  | S fuel' =>
      if path_exists w dest_path then
        free_dest fuel' w dest_folder original_dest (counter + 1)
          (joinpath dest_folder (conflict_name original_dest counter))
      else Some dest_path
  end.

(** The body of the loop over [directory.iterdir()]. *)
Definition plan_item (fuel : nat) (w : world) (directory : path)
    (acc : list (path * path * string) * list (string * Z)) (item : path)
    : option (list (path * path * string) * list (string * Z)) :=
  let '(files_to_move, stats) := acc in
  if is_dir w item || startswith (name item) "." then Some acc
  else
    let file_extension := path_suffix item in
    let category := get_category file_extension in
    let dest_folder := joinpath directory category in
    let dest_path := joinpath dest_folder (name item) in
    match free_dest fuel w dest_folder dest_path 1 dest_path with
    | Some dest_path =>
        Some (files_to_move ++ [(item, dest_path, category)], di_incr category stats)
    | None => None
    end.

Fixpoint plan_items (fuel : nat) (w : world) (directory : path) (items : list path)
    (acc : list (path * path * string) * list (string * Z))
    : option (list (path * path * string) * list (string * Z)) :=
  match items with
  | [] => Some acc
  | item :: items' =>
      match plan_item fuel w directory acc item with
      | Some acc' => plan_items fuel w directory items' acc'
      | None => None
      end
  end.

(** The loop that moves the files; a failing move is reported and the
    loop goes on, a failing [mkdir] is not caught. *)
Fixpoint move_files (w : world) (files_to_move : list (path * path * string))
    : list org_event * org_exit * world :=
  match files_to_move with
  | [] => ([], Finished, w)
  | (source, dest, category) :: rest =>
      match mkdir_exist_ok w (path_parent dest) with
      | None => ([Mkdir (path_parent dest)], MkdirRaised, w)
      | Some w1 =>
          let '(w2, ok) := shutil_move w1 source dest in
          let '(evs, r, w3) := move_files w2 rest in
          (Mkdir (path_parent dest) :: Move source dest
           :: OPrint (if ok then OMoved (name source) category
                      else OErrorMoving (name source)) :: evs, r, w3)
      end
  end.

(** [organize_files]; [None] when a conflict loop did not end within
    [fuel] iterations. *)
Definition organize_files (fuel : nat) (w : world) (directory : path) (dry_run : bool)
    : option (list org_event * org_exit * world) :=
  let directory := resolve w directory in
  if negb (path_exists w directory) then
    Some ([OPrint (OErrNotExist directory)], Finished, w)
  else if negb (is_dir w directory) then
    Some ([OPrint (OErrNotDir directory)], Finished, w)
  else
    let out1 := [OPrint (OScanning dry_run directory)] in
    match plan_items fuel w directory (iterdir w directory) ([], []) with
    | None => None
    | Some (files_to_move, stats) =>
        match files_to_move with
        | [] => Some (out1 ++ [OPrint ONoFiles], Finished, w)
        | _ =>
            let out2 :=
              OPrint (OFound (len files_to_move))
              :: map (fun e => OPrint (OPlanned e.2 (name e.1.1))) files_to_move
              ++ OPrint OSummary
              :: map (fun e => OPrint (OCount e.1 e.2)) (merge_sort item_le stats) in
            if negb dry_run then
              let '(evs, r, w') := move_files w files_to_move in
              match r with
              | Finished =>
                  Some (out1 ++ out2 ++ OPrint OOrganizing :: evs ++ [OPrint OComplete],
                        Finished, w')
              | MkdirRaised =>
                  Some (out1 ++ out2 ++ OPrint OOrganizing :: evs, MkdirRaised, w')
              end
            else Some (out1 ++ out2 ++ [OPrint ODryRunNote], Finished, w)
        end
    end.

End Organizer.

Section OrganizerVocabulary.
Context `{Builtins} `{Pathlib}.

(** An entry that the organizer does not skip. *)
Definition visible (w : world) (item : path) : Prop :=
  is_dir w item = false /\ startswith (name item) "." = false.

(** The moves and the directory creations of a trace, in order. *)
Definition moves (evs : list org_event) : list (path * path) :=
  omap (fun e => match e with Move s d => Some (s, d) | _ => None end) evs.

Definition mkdirs (evs : list org_event) : list path :=
  omap (fun e => match e with Mkdir p => Some p | _ => None end) evs.

#[global] Instance visible_dec w item : Decision (visible w item).
Proof. unfold visible. apply _. Defined.

(** The lines of the plan, in order. *)
Definition planned (evs : list org_event) : list (string * string) :=
  omap (fun e => match e with OPrint (OPlanned c n) => Some (c, n) | _ => None end) evs.

(** The destination tried when the counter is [counter]. *)
Definition tried_dest (dest_folder original_dest : path) (counter : Z) : path :=
  joinpath dest_folder (conflict_name original_dest counter).

(** [dest] is the first destination for [original_dest] that does not
    exist: [original_dest] itself, or the first free numbered one. *)
Definition first_free (w : world) (dest_folder original_dest dest : path) : Prop :=
  path_exists w dest = false /\
  (dest = original_dest \/
   (path_exists w original_dest = true /\
    exists c, 1 <= c /\ dest = tried_dest dest_folder original_dest c /\
      forall j, 1 <= j < c -> path_exists w (tried_dest dest_folder original_dest j) = true)).

(** An entry of [files_to_move] as the scan makes it. *)
Definition planned_well (w : world) (directory : path) (e : path * path * string) : Prop :=
  e.2 = get_category (path_suffix e.1.1) /\
  first_free w (joinpath directory e.2)
    (joinpath (joinpath directory e.2) (name e.1.1)) e.1.2.

(** The lines of the summary, in order. *)
Definition counts (evs : list org_event) : list (string * Z) :=
  omap (fun e => match e with OPrint (OCount c n) => Some (c, n) | _ => None end) evs.

(** [stats.get(k)]. *)
Fixpoint di_get (k : string) (d : list (string * Z)) : option Z :=
  match d with
  | [] => None
  | (k', n) :: d' => if decide (k = k') then Some n else di_get k d'
  end.

(** How often [k] occurs in a list of categories. *)
Definition occurrences (k : string) (categories : list string) : Z :=
  len (filter (fun c => c = k) categories).

(** [stats] counts the categories of a list. *)
Definition tallied (categories : list string) (stats : list (string * Z)) : Prop :=
  NoDup stats.*1 /\
  forall k, di_get k stats =
            if decide (occurrences k categories = 0) then None
            else Some (occurrences k categories).

(** Different counters give different destinations. *)
Definition counters_distinct (dest_folder original_dest : path) : Prop :=
  forall c1 c2, 1 <= c1 -> 1 <= c2 ->
    tried_dest dest_folder original_dest c1 = tried_dest dest_folder original_dest c2 ->
    c1 = c2.
End OrganizerVocabulary.

(** *** A sample instance of the path operations *)

Module SampleOrganizer.

(** What follows the last dot of a string, if it has a dot. *)
Fixpoint after_last_dot (s : string) : option string :=
  match s with
  | EmptyString => None
  | String c s' =>
      match after_last_dot s' with
      | Some t => Some t
      | None => if Ascii.eqb c "." then Some s' else None
      end
  end.

(** [suffix]: from the last dot, unless the name starts or ends with it. *)
Definition suffix_of (n : string) : string :=
  match n with
  | EmptyString => ""
  | String c n' =>
      match after_last_dot n' with
      | Some EmptyString | None => ""
      | Some t => String "." t
      end
  end.

Definition stem_of (n : string) : string :=
  substring 0 (String.length n - String.length (suffix_of n)) n.

Definition parent_of (p : string) : string :=
  substring 0 (String.length p - String.length (name p) - 1) p.

Definition make_dir (w : world) (p : string) : option world :=
  match files w !! p with
  | Some n => if bool_decide (n_kind n = Directory) then Some w else None
  | None => Some {| files := <[p := Sample.dir]> (files w);
                    glob := glob w; resolve := resolve w |}
  end.

Definition move_file (w : world) (source dest : string) : world * bool :=
  match files w !! source with
  | Some n => ({| files := <[dest := n]> (base.delete source (files w));
                  glob := glob w; resolve := resolve w |}, true)
  | None => (w, false)
  end.

#[export] Instance pathlib : Pathlib :=
  {| path_suffix := fun p => suffix_of (name p);
     path_stem := fun p => stem_of (name p);
     joinpath := fun d n => d +:+ "/" +:+ n;
     path_parent := parent_of;
     str_of_int := fun c => NilEmpty.string_of_int (Z.to_int c);
     iterdir := fun w d => glob w d "*";
     mkdir_exist_ok := make_dir;
     shutil_move := move_file |}.

(** A download folder: a picture, a text whose name is taken twice in
    [Documents], a dot-file and a directory. *)
Definition downloads : world :=
  Sample.tree [("/d/a.JPG", Sample.regular 3 (Sample.b "abc"));
               ("/d/notes.txt", Sample.regular 2 (Sample.b "hi"));
               ("/d/.hidden", Sample.regular 1 (Sample.b "x"));
               ("/d/Documents", Sample.dir);
               ("/d/Documents/notes.txt", Sample.regular 2 (Sample.b "yo"));
               ("/d/Documents/notes_1.txt", Sample.regular 2 (Sample.b "ya"))].

(** In this tree [glob] lists what lies in [/d] itself. *)
Definition downloads_top : world :=
  {| files := files downloads;
     glob := fun _ _ => ["/d/a.JPG"; "/d/notes.txt"; "/d/.hidden"; "/d/Documents"];
     resolve := resolve downloads |}.

End SampleOrganizer.

(** ** Grouping, and further vocabulary for the two passes *)

Section Grouping.
Context {K V : Type} `{EqDecision K}.

(** [d.get(k)]. *)
Fixpoint dd_get (k : K) (d : list (K * list V)) : option (list V) :=
  match d with
  | [] => None
  | (k', vs) :: d' => if decide (k = k') then Some vs else dd_get k d'
  end.

(** Filing [x] under its key, for the entries that have one. *)
Definition dd_file (key : V -> option K) (d : list (K * list V)) (x : V)
    : list (K * list V) :=
  match key x with
  | Some k => dd_append k x d
  | None => d
  end.

Definition group_by (key : V -> option K) (xs : list V) : list (K * list V) :=
  fold_left (dd_file key) xs [].

(** The entries of [xs] with key [k], in the order of [xs]. *)
Definition keyed (key : V -> option K) (k : K) (xs : list V) : list V :=
  filter (fun x => key x = Some k) xs.

Definition nonempty (l : list V) : option (list V) :=
  match l with
  | [] => None
  | _ => Some l
  end.

(** The state of a grouping once the entries [seen] are filed. *)
Definition grouped (key : V -> option K) (seen : list V) (d : list (K * list V)) : Prop :=
  NoDup d.*1 /\ forall k, dd_get k d = nonempty (keyed key k seen).
End Grouping.

Section PassVocabulary.
Context `{Hashlib} `{Builtins}.
Implicit Types (w : world) (p q : path).

(** The size under which the first pass files a path: it is a regular
    file, [stat] succeeds and the size is at least [min_size]. *)
Definition size_key w (min_size : Z) p : option Z :=
  if is_file w p then
    match os_stat w p with
    | Some sr => if min_size <=? st_size sr then Some (st_size sr) else None
    | None => None
    end
  else None.

(** The digest under which the second pass files a path: the read
    succeeds and the digest passes [if file_hash:]. *)
Definition digest_key w (a : string) p : option string :=
  if truthy (hash_of w p a) then hash_of w p a else None.

(** What [directory.glob(pattern)] yields in [find_duplicates]. *)
Definition listing w (dir : path) (rec : bool) : list path :=
  glob w (resolve w dir) (if rec then "**/*" else "*").

(** The files whose content is read, in the order of the reads. *)
Definition opens (evs : list event) : list path :=
  omap (fun e => match e with Open p => Some p | _ => None end) evs.


(** An answer to the choice prompt that is neither a command nor the
    index of a member of a set of [n] files. *)
Definition invalid_choice (n : Z) (answer : string) : Prop :=
  normal answer ≠ "q" /\ normal answer ≠ "s" /\
  match int_of_str (normal answer) with
  | Some i => ~ (1 <= i <= n)
  | None => True
  end.

(** The line printed for an invalid answer. *)
Definition invalid_line (n : Z) (answer : string) : line :=
  match int_of_str (normal answer) with
  | Some _ => LInvalidChoice n
  | None => LInvalidInput n
  end.
End PassVocabulary.

(** * Properties *)

(** Closes goals that are propositional combinations of equations between
    events or paths. *)
Ltac mem_cases :=
  intuition (subst; try discriminate; try congruence; eauto);
  repeat match goal with
  | Heq : Open _ = Open _ |- _ => injection Heq as ->
  | Heq : Print (LErrorReading _) = Print (LErrorReading _) |- _ => injection Heq as ->
  end; intuition (subst; try discriminate; try congruence; eauto).

(** ** Loops *)

Lemma fold_left_invariant {A B} (P : A -> Prop) (f : A -> B -> A) (l : list B) (a : A) :
  P a -> (forall acc x, x ∈ l -> P acc -> P (f acc x)) -> P (fold_left f l a).
Proof.
  revert a. induction l as [|x l IH]; intros a Ha Hstep; simpl; [done|].
  apply IH.
  - apply Hstep; [left | done].
  - intros acc y Hy. apply Hstep. by right.
Qed.

(** ** Dictionaries of lists *)

Section DefaultdictFacts.
Context {K V : Type} `{EqDecision K}.
Implicit Types (d : list (K * list V)) (k : K) (v : V) (l : list V).

Lemma dd_append_keys k v d :
  (dd_append k v d).*1 = if decide (k ∈ d.*1) then d.*1 else d.*1 ++ [k].
Proof.
  induction d as [|[k' vs] d IH]; [done|]. cbn [dd_append].
  destruct (decide (k = k')) as [->|Hne]; rewrite !fmap_cons; cbn [fst].
  - { rewrite decide_True; [done | left]. }
  - {
    + rewrite IH. destruct (decide (k ∈ d.*1)) as [Hin|Hin].
      * rewrite decide_True; [done | by right].
      * rewrite decide_False; [done |].
        intros [?|?]%elem_of_cons; congruence. }
Qed.

Lemma dd_append_NoDup k v d : NoDup d.*1 -> NoDup (dd_append k v d).*1.
Proof.
  intros Hnd. rewrite dd_append_keys. case_decide as Hin; [done|].
  apply NoDup_app. split_and!; [done | | apply NoDup_singleton].
  intros x Hx ->%list_elem_of_singleton. done.
Qed.

(** With distinct keys a key has one bucket. *)
Lemma dd_lookup_unique d k l l' :
  NoDup d.*1 -> (k, l) ∈ d -> (k, l') ∈ d -> l = l'.
Proof.
  induction d as [|[k0 l0] d IH]; simpl; intros Hnd H1 H2.
  - by apply elem_of_nil in H1.
  - apply NoDup_cons in Hnd as [Hk0 Hnd].
    apply elem_of_cons in H1 as [H1|H1]; apply elem_of_cons in H2 as [H2|H2].
    + congruence.
    + inversion H1; subst. exfalso. apply Hk0.
      apply list_elem_of_fmap. by exists (k0, l').
    + inversion H2; subst. exfalso. apply Hk0.
      apply list_elem_of_fmap. by exists (k0, l).
    + by apply IH.
Qed.

(** A bucket of the extended dictionary is an old bucket, or the bucket
    of [k] with [v] added at its end. *)
Lemma dd_append_elem k v d k0 l :
  (k0, l) ∈ dd_append k v d ->
  (k0, l) ∈ d \/ (k0 = k /\ exists l0, l = l0 ++ [v] /\ ((k, l0) ∈ d \/ l0 = [])).
Proof.
  induction d as [|[k' vs] d IH]; simpl.
  - intros Hin%list_elem_of_singleton. inversion Hin; subst.
    right. split; [done|]. exists []. auto.
  - destruct (decide (k = k')) as [->|Hne].
    + intros [Hin|Hin]%elem_of_cons.
      * inversion Hin; subst. right. split; [done|].
        exists vs. split; [done|]. left. left.
      * left. by right.
    + intros [Hin|Hin]%elem_of_cons.
      * inversion Hin; subst. left. left.
      * destruct (IH Hin) as [?|(-> & l0 & -> & [?| ->])].
        -- left. by right.
        -- right. split; [done|]. exists l0. split; [done|]. left. by right.
        -- right. split; [done|]. exists []. auto.
Qed.

(** The values of the extended dictionary are the old ones and [v]. *)
Lemma dd_values_append k v d : dd_values (dd_append k v d) ≡ₚ dd_values d ++ [v].
Proof.
  unfold dd_values. induction d as [|[k' vs] d IH]; simpl; [done|].
  destruct (decide (k = k')) as [->|Hne]; simpl.
  - rewrite <- !(assoc_L (++)). apply Permutation_app_head.
    apply Permutation_app_comm.
  - rewrite IH. by rewrite (assoc_L (++)).
Qed.

Lemma dd_values_elem d x : x ∈ dd_values d <-> exists k l, (k, l) ∈ d /\ x ∈ l.
Proof.
  unfold dd_values. induction d as [|[k0 l0] d IH]; simpl.
  - split; [by intros ?%elem_of_nil | by intros (? & ? & ?%elem_of_nil & _)].
  - rewrite elem_of_app, IH. split.
    + intros [Hx|(k & l & Hin & Hx)].
      * exists k0, l0. split; [left | done].
      * exists k, l. split; [by right | done].
    + intros (k & l & [Hin|Hin]%elem_of_cons & Hx).
      * inversion Hin; subst. by left.
      * right. by exists k, l.
Qed.

Lemma dd_Forall_nil (P : K -> V -> Prop) : dd_Forall P [].
Proof. intros k l x Hin. by apply elem_of_nil in Hin. Qed.

Lemma dd_append_Forall (P : K -> V -> Prop) k v d :
  dd_Forall P d -> P k v -> dd_Forall P (dd_append k v d).
Proof.
  intros Hd Hv k0 l x Hin Hx.
  apply dd_append_elem in Hin as [Hin|( -> & l0 & -> & Hl0)]; [by eapply Hd|].
  apply elem_of_app in Hx as [Hx| ->%list_elem_of_singleton]; [|done].
  destruct Hl0 as [Hin| ->]; [by eapply Hd | by apply elem_of_nil in Hx].
Qed.
End DefaultdictFacts.

(** ** The two passes of [find_duplicates] *)

Section ScanFacts.
Context `{Hashlib} `{Builtins}.
Implicit Types (w : world) (p : path) (sm : size_map) (st : hash_state).

Lemma scan_step_inv w min_size paths acc p :
  p ∈ paths ->
  NoDup acc.1.*1 /\ dd_Forall (sized w min_size paths) acc.1 ->
  NoDup (scan_step w min_size acc p).1.*1 /\
  dd_Forall (sized w min_size paths) (scan_step w min_size acc p).1.
Proof.
  intros Hp [Hnd Hall]. destruct acc as [m c]. unfold scan_step.
  destruct (is_file w p) eqn:Hfile; [|done].
  destruct (os_stat w p) as [sr|] eqn:Hstat; [|done].
  destruct (Z.leb_spec min_size (st_size sr)); [|done]. simpl in *. split.
  - by apply dd_append_NoDup.
  - apply dd_append_Forall; [done|]. unfold sized. eauto 10.
Qed.

Lemma size_pass_inv w min_size paths :
  NoDup (size_pass w min_size paths).1.*1 /\
  dd_Forall (sized w min_size paths) (size_pass w min_size paths).1.
Proof.
  unfold size_pass. apply fold_left_invariant.
  - split; [constructor | apply dd_Forall_nil].
  - intros acc x Hx. by apply scan_step_inv.
Qed.

Lemma candidates_cons sm (b : Z * list path) :
  candidates (b :: sm) = (if 1 <? len b.2 then b.2 else []) ++ candidates sm.
Proof.
  unfold candidates, dd_values.
  destruct (Z.ltb_spec 1 (len b.2)).
  - by rewrite filter_cons_True.
  - rewrite filter_cons_False; [done | lia].
Qed.

Lemma candidates_elem sm p :
  p ∈ candidates sm <-> exists s l, (s, l) ∈ sm /\ p ∈ l /\ 1 < len l.
Proof.
  unfold candidates. rewrite dd_values_elem. split.
  - intros (s & l & [Hlen Hin]%list_elem_of_filter & Hp). by exists s, l.
  - intros (s & l & Hin & Hp & Hlen). exists s, l. split; [|done].
    by apply list_elem_of_filter.
Qed.

Lemma hashes_digest w a p :
  hashes w a p <-> exists d, hash_of w p a = Some d /\ d ≠ "".
Proof.
  unfold hashes, truthy. destruct (hash_of w p a) as [d|].
  - destruct (String.eqb_spec d ""); simpl; split.
    + done.
    + intros (d' & [= <-] & ?). done.
    + eauto.
    + done.
  - split; [done | by intros (? & ? & ?)].
Qed.

Lemma hash_inv_init w a :
  hash_inv w a [] {| hash_map := []; hashed := 0; log := [] |}.
Proof.
  split; simpl.
  - apply dd_Forall_nil.
  - constructor.
  - done.
  - intros p. by rewrite !elem_of_nil.
  - intros p. rewrite !elem_of_nil. tauto.
Qed.

Lemma hash_file_inv w a n seen st p :
  hash_inv w a seen st -> hash_inv w a (seen ++ [p]) (hash_file w a n st p).
Proof.
  intros [Hdig Hkeys Hvals Hopen Herr].
  unfold hash_file, get_file_hash.
  destruct (hash_of w p a) as [d|] eqn:Hd; simpl.
  - destruct (String.eqb_spec d "") as [->|Hne]; simpl.
    + assert (~ hashes w a p) as Hno.
      { rewrite hashes_digest. intros (d' & Hd' & ?). congruence. }
      split; simpl.
      * done.
      * done.
      * rewrite filter_app, filter_cons_False, filter_nil, app_nil_r; done.
      * intros q. rewrite !elem_of_app, !list_elem_of_singleton, Hopen.
        mem_cases.
      * intros q. rewrite !elem_of_app, !list_elem_of_singleton, Herr.
        mem_cases.
    + assert (hashes w a p) as Hyes.
      { rewrite hashes_digest. eauto. }
      split; simpl.
      * by apply dd_append_Forall.
      * by apply dd_append_NoDup.
      * rewrite dd_values_append, Hvals, filter_app, filter_cons_True by done.
        by rewrite filter_nil.
      * intros q. rewrite !elem_of_app, elem_of_cons, Hopen.
        rewrite list_elem_of_singleton.
        destruct (_ =? 0); [rewrite list_elem_of_singleton | rewrite elem_of_nil];
          mem_cases.
      * intros q. rewrite !elem_of_app, elem_of_cons, Herr.
        rewrite list_elem_of_singleton.
        destruct (_ =? 0); [rewrite list_elem_of_singleton | rewrite elem_of_nil];
          mem_cases.
  - assert (~ hashes w a p) as Hno.
    { rewrite hashes_digest. intros (d' & Hd' & ?). congruence. }
    split; simpl.
    + done.
    + done.
    + rewrite filter_app, filter_cons_False, filter_nil, app_nil_r; done.
    + intros q. rewrite !elem_of_app, !elem_of_cons, !elem_of_nil, Hopen.
      mem_cases.
    + intros q. rewrite !elem_of_app, !elem_of_cons, !elem_of_nil, Herr.
      mem_cases.
Qed.

Lemma hash_files_inv w a n l : forall seen st,
  hash_inv w a seen st ->
  hash_inv w a (seen ++ l) (fold_left (hash_file w a n) l st).
Proof.
  induction l as [|p l IH]; intros seen st Hinv; simpl.
  - by rewrite app_nil_r.
  - rewrite (cons_middle p), (assoc_L (++)). apply IH. by apply hash_file_inv.
Qed.

Lemma hash_buckets_inv w a n sm : forall seen st,
  hash_inv w a seen st ->
  hash_inv w a (seen ++ candidates sm) (fold_left (hash_bucket w a n) sm st).
Proof.
  induction sm as [|b sm IH]; intros seen st Hinv; simpl.
  - unfold candidates, dd_values. simpl. by rewrite app_nil_r.
  - rewrite candidates_cons, (assoc_L (++)). apply IH. unfold hash_bucket.
    destruct (1 <? len b.2).
    + by apply hash_files_inv.
    + by rewrite app_nil_r.
Qed.

Lemma hash_pass_inv w a n sm :
  hash_inv w a (candidates sm) (hash_pass w a n sm).
Proof. apply (hash_buckets_inv w a n sm []), hash_inv_init. Qed.

End ScanFacts.

(** ** [find_duplicates] as a whole *)

Section FindDuplicatesFacts.
Context `{Hashlib} `{Builtins}.
Implicit Types (w : world) (p : path).

Lemma count_files_to_hash_cons (b : Z * list path) sm :
  count_files_to_hash (b :: sm) =
  (if 1 <? len b.2 then len b.2 else 0) + count_files_to_hash sm.
Proof.
  unfold count_files_to_hash. destruct (Z.ltb_spec 1 (len b.2)).
  - by rewrite filter_cons_True.
  - rewrite filter_cons_False; [done | lia].
Qed.

Lemma count_files_to_hash_nonneg sm : 0 <= count_files_to_hash sm.
Proof.
  induction sm as [|b sm IH]; [done|]. rewrite count_files_to_hash_cons.
  destruct (Z.ltb_spec 1 (len b.2)); lia.
Qed.

Lemma count_zero_candidates sm : count_files_to_hash sm = 0 -> candidates sm = [].
Proof.
  induction sm as [|b sm IH]; [done|].
  rewrite count_files_to_hash_cons, candidates_cons.
  pose proof (count_files_to_hash_nonneg sm).
  destruct (Z.ltb_spec 1 (len b.2)); intros Hsum; [lia|].
  apply IH. lia.
Qed.

Lemma find_duplicates_invalid w dir rec min_size a :
  valid_root w dir = false ->
  find_duplicates w dir rec min_size a = ([Print (LErrNotExist (resolve w dir))], []) \/
  find_duplicates w dir rec min_size a = ([Print (LErrNotDir (resolve w dir))], []).
Proof.
  unfold valid_root, find_duplicates. intros Hv.
  destruct (path_exists w (resolve w dir)); simpl in *; [|by left].
  rewrite Hv. by right.
Qed.

Lemma find_duplicates_valid w dir rec min_size a :
  valid_root w dir = true ->
  exists pre st,
    find_duplicates w dir rec min_size a = (pre ++ log st, keep_duplicates (hash_map st)) /\
    Forall is_print pre /\
    (forall p, Print (LErrorReading p) ∉ pre) /\
    hash_inv w a (candidates (size_buckets w dir rec min_size)) st.
Proof.
  unfold valid_root, find_duplicates, size_buckets.
  intros [-> ->]%andb_prop. simpl.
  destruct (size_pass _ _ _) as [sm fc]. simpl.
  destruct (Z.eqb_spec (count_files_to_hash sm) 0) as [Hz|Hnz].
  - eexists [_; _; _; _], {| hash_map := []; hashed := 0; log := [] |}.
    split_and!; [done | | |].
    + repeat constructor; by eexists.
    + intros p. rewrite !elem_of_cons, elem_of_nil. mem_cases.
    + rewrite (count_zero_candidates _ Hz). apply hash_inv_init.
  - eexists [_; _; _; _], _.
    split_and!; [done | | | apply hash_pass_inv].
    + repeat constructor; by eexists.
    + intros p. rewrite !elem_of_cons, elem_of_nil. mem_cases.
Qed.

(** Members of returned sets and opened files are candidates. *)
Lemma find_duplicates_open w dir rec min_size a p :
  Open p ∈ fst (find_duplicates w dir rec min_size a) ->
  p ∈ candidates (size_buckets w dir rec min_size).
Proof.
  destruct (valid_root w dir) eqn:Hv.
  - destruct (find_duplicates_valid w dir rec min_size a Hv)
      as (pre & st & -> & Hpre & _ & Hinv). simpl.
    intros [Hin|Hin]%elem_of_app; [|by apply Hinv].
    rewrite Forall_forall in Hpre. destruct (Hpre _ Hin) as [l [=]].
  - destruct (find_duplicates_invalid w dir rec min_size a Hv) as [-> | ->];
      simpl; intros [=]%list_elem_of_singleton.
Qed.

Lemma find_duplicates_set w dir rec min_size a h l :
  (h, l) ∈ snd (find_duplicates w dir rec min_size a) ->
  1 < len l /\
  exists st, hash_inv w a (candidates (size_buckets w dir rec min_size)) st /\
             (h, l) ∈ hash_map st.
Proof.
  destruct (valid_root w dir) eqn:Hv.
  - destruct (find_duplicates_valid w dir rec min_size a Hv)
      as (pre & st & -> & _ & _ & Hinv). simpl.
    intros [Hlen Hin]%list_elem_of_filter. eauto.
  - destruct (find_duplicates_invalid w dir rec min_size a Hv) as [-> | ->];
      simpl; by intros ?%elem_of_nil.
Qed.

Lemma find_duplicates_member w dir rec min_size a h l p :
  (h, l) ∈ snd (find_duplicates w dir rec min_size a) -> p ∈ l ->
  p ∈ candidates (size_buckets w dir rec min_size) /\
  hash_of w p a = Some h /\ h ≠ "".
Proof.
  intros (Hlen & st & Hinv & Hin)%find_duplicates_set Hp. split.
  - eapply list_elem_of_filter. rewrite <- (inv_values _ _ _ _ Hinv).
    apply dd_values_elem. eauto.
  - by apply (inv_digest _ _ _ _ Hinv h l p).
Qed.

(** A path in a bucket has that bucket's size; so a path filed alone is
    no candidate. *)
Lemma size_buckets_sized w dir rec min_size s l p :
  (s, l) ∈ size_buckets w dir rec min_size -> p ∈ l ->
  is_file w p = true /\
  (exists sr, os_stat w p = Some sr /\ st_size sr = s) /\ min_size <= s.
Proof.
  unfold size_buckets. intros Hin Hp.
  destruct (size_pass_inv w min_size
              (glob w (resolve w dir) (if rec then "**/*" else "*"))) as [_ Hall].
  destruct (Hall s l p Hin Hp) as (_ & ? & ? & ?). done.
Qed.

Lemma size_buckets_bucket w dir rec min_size s s' l l' p :
  (s, l) ∈ size_buckets w dir rec min_size -> p ∈ l ->
  (s', l') ∈ size_buckets w dir rec min_size -> p ∈ l' ->
  s = s' /\ l = l'.
Proof.
  intros Hin Hp Hin' Hp'.
  destruct (size_buckets_sized _ _ _ _ _ _ _ Hin Hp) as (_ & (sr & Hsr & <-) & _).
  destruct (size_buckets_sized _ _ _ _ _ _ _ Hin' Hp') as (_ & (sr' & Hsr' & <-) & _).
  assert (sr = sr') as <- by congruence. split; [done|].
  unfold size_buckets in *.
  destruct (size_pass_inv w min_size
              (glob w (resolve w dir) (if rec then "**/*" else "*"))) as [Hnd _].
  by eapply dd_lookup_unique.
Qed.

End FindDuplicatesFacts.
(** ** Counting members *)

Lemma filter_all {A} (P : A -> Prop) `{forall x, Decision (P x)} (l : list A) :
  (forall x, x ∈ l -> P x) -> filter P l = l.
Proof.
  induction l as [|x l IH]; intros Hall; [done|].
  rewrite filter_cons_True by (apply Hall; left).
  f_equal. apply IH. intros y Hy. apply Hall. by right.
Qed.

Lemma filter_none {A} (P : A -> Prop) `{forall x, Decision (P x)} (l : list A) :
  (forall x, x ∈ l -> ~ P x) -> filter P l = [].
Proof.
  induction l as [|x l IH]; intros Hnone; [done|].
  rewrite filter_cons_False by (apply Hnone; left).
  apply IH. intros y Hy. apply Hnone. by right.
Qed.

Lemma filter_swap {A} (P Q : A -> Prop)
    `{forall x, Decision (P x)} `{forall x, Decision (Q x)} (l : list A) :
  filter P (filter Q l) = filter Q (filter P l).
Proof.
  rewrite !list_filter_filter. apply list_filter_iff. intros x. tauto.
Qed.

Lemma filter_bucket_le {K V} (P : V -> Prop) `{forall x, Decision (P x)}
    (d : list (K * list V)) k l :
  (k, l) ∈ d -> (length (filter P l) <= length (filter P (dd_values d)))%nat.
Proof.
  unfold dd_values. induction d as [|[k0 l0] d IH]; simpl.
  - by intros ?%elem_of_nil.
  - rewrite filter_app, length_app. intros [Hin|Hin]%elem_of_cons.
    + inversion Hin; subst. lia.
    + specialize (IH Hin). lia.
Qed.

(** Filtering the candidates by membership in one bucket gives back that
    bucket, when a path lies in buckets of one key only. *)
Lemma candidates_filter_bucket (sm : size_map) s (l0 : list path) :
  NoDup sm.*1 ->
  (forall s' l' x, (s', l') ∈ sm -> x ∈ l' -> x ∈ l0 -> s' = s) ->
  (s, l0) ∈ sm -> 1 < len l0 ->
  filter (.∈ l0) (candidates sm) = l0.
Proof.
  induction sm as [|[s1 l1] sm IH]; intros Hnd Hsep Hin Hlen.
  - by apply elem_of_nil in Hin.
  - rewrite fmap_cons in Hnd. apply NoDup_cons in Hnd as [Hs1 Hnd]. simpl in Hs1.
    rewrite candidates_cons, filter_app. simpl.
    apply elem_of_cons in Hin as [Heq|Hin].
    + inversion Heq; subst s1 l1.
      destruct (Z.ltb_spec 1 (len l0)); [|lia].
      rewrite filter_all by done.
      rewrite filter_none; [by rewrite app_nil_r|].
      intros x (s' & l' & Hin' & Hx & _)%candidates_elem Hx0.
      apply Hs1. apply list_elem_of_fmap. exists (s', l'). split; [|done].
      simpl. symmetry. eapply Hsep; [by right | done | done].
    + assert (s1 ≠ s) as Hne.
      { intros ->. apply Hs1. apply list_elem_of_fmap. by exists (s, l0). }
      rewrite (filter_none _ (if 1 <? len l1 then l1 else [])).
      * simpl. apply IH; [done | | done | done].
        intros s' l' x Hin' Hx Hx0. eapply Hsep; [by right | done | done].
      * intros x Hx Hx0. apply Hne. apply (Hsep s1 l1 x); [left | | done].
        destruct (1 <? len l1); [done | by apply elem_of_nil in Hx].
Qed.

(** * The claims about the scan *)

Section ScanClaims.
Context `{Hashlib} `{Builtins}.
Implicit Types (w : world) (p q : path).

(** C1. A file that is alone in its size bucket is never opened for
    hashing and is a member of no returned set; every file that is
    opened comes from a bucket of two or more paths. *)
Theorem unique_size_never_hashed w dir rec min_size a s p :
  (s, [p]) ∈ size_buckets w dir rec min_size ->
  (Open p ∉ fst (find_duplicates w dir rec min_size a)) /\
  (forall h l, (h, l) ∈ snd (find_duplicates w dir rec min_size a) -> p ∉ l) /\
  (forall q, Open q ∈ fst (find_duplicates w dir rec min_size a) ->
     exists s' l', (s', l') ∈ size_buckets w dir rec min_size /\ q ∈ l' /\
                   (2 <= length l')%nat).
Proof.
  intros Hone.
  assert (p ∉ candidates (size_buckets w dir rec min_size)) as Hnot.
  { intros (s' & l' & Hin & Hp & Hlen)%candidates_elem.
    destruct (size_buckets_bucket w dir rec min_size s s' [p] l' p) as [_ <-];
      [done | left | done | done |].
    unfold len in Hlen. simpl in Hlen. lia. }
  split_and!.
  - intros Hopen. by apply Hnot, (find_duplicates_open w dir rec min_size a).
  - intros h l Hin Hp. apply Hnot.
    by apply (find_duplicates_member w dir rec min_size a h l p).
  - intros q (s' & l' & Hin & Hq & Hlen)%find_duplicates_open%candidates_elem.
    exists s', l'. split_and!; [done | done |]. unfold len in Hlen. lia.
Qed.


(** C9, as the code has it. The traversal keeps an entry only if
    [is_file] holds of it: a directory is filed in no size bucket and is
    a member of no returned set. Names are not looked at. *)
Theorem directories_excluded w dir rec min_size a p :
  is_dir w p = true ->
  (forall s l, (s, l) ∈ size_buckets w dir rec min_size -> p ∉ l) /\
  (forall h l, (h, l) ∈ snd (find_duplicates w dir rec min_size a) -> p ∉ l).
Proof.
  intros Hdir.
  assert (is_file w p = false) as Hfile.
  { unfold is_dir, is_file in *. destruct (files w !! p) as [n|]; [|done].
    apply bool_decide_eq_true in Hdir. apply bool_decide_eq_false. congruence. }
  assert (forall s l, (s, l) ∈ size_buckets w dir rec min_size -> p ∉ l) as Hb.
  { intros s l Hin Hp.
    destruct (size_buckets_sized w dir rec min_size s l p Hin Hp) as (? & _).
    congruence. }
  split; [done|].
  intros h l Hin Hp.
  destruct (find_duplicates_member w dir rec min_size a h l p Hin Hp) as (Hc & _).
  apply candidates_elem in Hc as (s & lp & Hin' & Hp' & _). by eapply Hb.
Qed.

End ScanClaims.

Import Sample.

Lemma unique_size_never_hashed_witness :
  (20, ["/d/D"]) ∈ size_buckets tree_abcd "/d" true 0 /\
  Open "/d/D" ∉ fst (find_duplicates tree_abcd "/d" true 0 "md5").
Proof.
  assert ((20, ["/d/D"]) ∈ size_buckets tree_abcd "/d" true 0) as Hin.
  { vm_compute. right. left. }
  split; [exact Hin|].
  apply (unique_size_never_hashed tree_abcd "/d" true 0 "md5" 20 "/d/D" Hin).
Defined.



(** C9 fails as worded: two identical dot-files are returned as a set. *)
Lemma dotfiles_are_scanned :
  snd (find_duplicates tree_hidden "/d" true 0 "md5") = [("26", ["/d/.x"; "/d/.y"])] /\
  startswith (name "/d/.x") "." = true /\
  ~ no_dirs_no_dotfiles tree_hidden (snd (find_duplicates tree_hidden "/d" true 0 "md5")).
Proof.
  split_and!; [by vm_compute..|].
  intros Hno.
  destruct (Hno "26" ["/d/.x"; "/d/.y"] "/d/.x") as [_ Hdot].
  - vm_compute. left.
  - left.
  - vm_compute in Hdot. discriminate.
Qed.

Lemma directories_excluded_witness :
  is_dir tree_abcd "/d/sub" = true /\
  forall s l, (s, l) ∈ size_buckets tree_abcd "/d" true 0 -> "/d/sub" ∉ l.
Proof.
  assert (is_dir tree_abcd "/d/sub" = true) as Hdir by (vm_compute; reflexivity).
  split; [exact Hdir|].
  apply (directories_excluded tree_abcd "/d" true 0 "md5" "/d/sub" Hdir).
Defined.

Section ReadFailureClaims.
Context `{Hashlib} `{Builtins}.
Implicit Types (w : world) (p q : path).

(** C4, as the code has it. On a valid root: a candidate whose read
    fails is a member of no returned set and an error line naming it is
    printed; the scan does not stop, every candidate is still opened;
    and when one member of a 2-member size bucket fails, at most one
    member of any returned set comes from that bucket, so that no set is
    returned if this bucket holds the only candidates. No count of
    failures is part of the returned value. *)
Theorem read_failure_excluded w dir rec min_size a :
  valid_root w dir = true ->
  (forall p, p ∈ candidates (size_buckets w dir rec min_size) ->
     hash_of w p a = None ->
     (forall h l, (h, l) ∈ snd (find_duplicates w dir rec min_size a) -> p ∉ l) /\
     Print (LErrorReading p) ∈ fst (find_duplicates w dir rec min_size a)) /\
  (forall x, x ∈ candidates (size_buckets w dir rec min_size) ->
     Open x ∈ fst (find_duplicates w dir rec min_size a)) /\
  (forall s p q, (s, [p; q]) ∈ size_buckets w dir rec min_size ->
     hash_of w p a = None \/ hash_of w q a = None ->
     (forall h l, (h, l) ∈ snd (find_duplicates w dir rec min_size a) ->
        (length (filter (.∈ [p; q]) l) <= 1)%nat) /\
     (candidates (size_buckets w dir rec min_size) = [p; q] ->
      snd (find_duplicates w dir rec min_size a) = [])).
Proof.
  intros Hv.
  destruct (find_duplicates_valid w dir rec min_size a Hv)
    as (pre & st & Hrun & _ & _ & Hinv).
  assert (forall s p q, (s, [p; q]) ∈ size_buckets w dir rec min_size ->
            hash_of w p a = None \/ hash_of w q a = None ->
            forall h l, (h, l) ∈ snd (find_duplicates w dir rec min_size a) ->
            (length (filter (.∈ [p; q]) l) <= 1)%nat) as Hone.
  { intros s p q Hb Hfail h l Hin.
    rewrite Hrun in Hin. simpl in Hin.
    apply list_elem_of_filter in Hin as [_ Hin].
    etrans; [by eapply filter_bucket_le|].
    rewrite (inv_values _ _ _ _ Hinv), filter_swap.
    rewrite (candidates_filter_bucket _ s [p; q]); [| | | done | done].
    - assert (~ hashes w a p \/ ~ hashes w a q) as [Hp|Hq].
      { destruct Hfail as [Hf|Hf]; [left | right];
          rewrite hashes_digest; intros (d & Hd & _); congruence. }
      + rewrite filter_cons_False by done.
        destruct (decide (hashes w a q)).
        * by rewrite filter_cons_True.
        * rewrite filter_cons_False by done. simpl. lia.
      + destruct (decide (hashes w a p)).
        * rewrite filter_cons_True, filter_cons_False by done. done.
        * rewrite !filter_cons_False by done. simpl. lia.
    - unfold size_buckets.
      apply (size_pass_inv w min_size
               (glob w (resolve w dir) (if rec then "**/*" else "*"))).
    - intros s' l' x Hin' Hx Hx0.
      by destruct (size_buckets_bucket w dir rec min_size s' s l' [p; q] x). }
  split_and!.
  - intros p Hp Hfail. split.
    + intros h l Hin Hpl.
      destruct (find_duplicates_member w dir rec min_size a h l p Hin Hpl)
        as (_ & ? & _). congruence.
    + rewrite Hrun. simpl. apply elem_of_app. right.
      by apply (inv_error _ _ _ _ Hinv).
  - intros x Hx. rewrite Hrun. simpl. apply elem_of_app. right.
    by apply (inv_open _ _ _ _ Hinv).
  - intros s p q Hb Hfail. split; [by eapply Hone|].
    intros Hcand.
    specialize (Hone s p q Hb Hfail).
    destruct (snd (find_duplicates w dir rec min_size a)) as [|[h l] rest] eqn:Hres;
      [done | exfalso].
    assert ((h, l) ∈ snd (find_duplicates w dir rec min_size a)) as Hin
      by (rewrite Hres; left).
    assert ((h, l) ∈ (h, l) :: rest) as Hhd by left.
    pose proof (Hone h l Hhd) as Hle.
    rewrite filter_all in Hle.
    + apply find_duplicates_set in Hin as [Hlen _]. unfold len in Hlen. lia.
    + intros x Hx. rewrite <- Hcand.
      by apply (find_duplicates_member w dir rec min_size a h l x).
Qed.

End ReadFailureClaims.

Lemma read_failure_excluded_witness :
  valid_root tree_fail_one "/d" = true /\
  Print (LErrorReading "/d/A") ∈ fst (find_duplicates tree_fail_one "/d" true 0 "md5") /\
  snd (find_duplicates tree_fail_one "/d" true 0 "md5") = [].
Proof.
  assert (valid_root tree_fail_one "/d" = true) as Hv by (vm_compute; reflexivity).
  split; [exact Hv|].
  destruct (read_failure_excluded tree_fail_one "/d" true 0 "md5" Hv) as (Hfail & _ & Hpair).
  split.
  - apply (Hfail "/d/A"); [vm_compute; left | vm_compute; reflexivity].
  - apply (Hpair 10 "/d/A" "/d/B").
    + vm_compute. left.
    + left. vm_compute. reflexivity.
    + vm_compute. reflexivity.
Defined.

(** C4 fails as worded: a scan with one read failure and a scan with two
    return the same value, so no count of failures can be read off it. *)
Lemma failures_not_returned :
  read_failures tree_fail_one "/d" true 0 "md5" = 1%nat /\
  read_failures tree_fail_two "/d" true 0 "md5" = 2%nat /\
  ~ exists count,
      surfaces_failure_count count tree_fail_one "/d" true 0 "md5" /\
      surfaces_failure_count count tree_fail_two "/d" true 0 "md5".
Proof.
  split_and!; [by vm_compute..|].
  intros (count & H1 & H2). unfold surfaces_failure_count in *.
  assert (snd (find_duplicates tree_fail_one "/d" true 0 "md5") = []) as E1
    by (vm_compute; reflexivity).
  assert (snd (find_duplicates tree_fail_two "/d" true 0 "md5") = []) as E2
    by (vm_compute; reflexivity).
  rewrite E1 in H1. rewrite E2 in H2.
  assert (read_failures tree_fail_one "/d" true 0 "md5" = 1%nat) as F1 by (by vm_compute).
  assert (read_failures tree_fail_two "/d" true 0 "md5" = 2%nat) as F2 by (by vm_compute).
  congruence.
Qed.

(** * The claims about the report *)

Section ReportClaims.
Context `{Hashlib} `{Builtins}.
Implicit Types (w : world) (p : path) (dups : duplicates).

#[local] Arguments set_lines : simpl never.
#[local] Arguments len : simpl never.

Lemma set_lines_no_total w idx h fps sz wasted :
  Forall (fun e => ~ is_total_line e) (set_lines w idx h fps sz wasted).
Proof.
  unfold set_lines. rewrite !Forall_app. split_and!.
  - repeat constructor; intros [t [=]].
  - induction fps as [|f fps IH]; simpl; [constructor|].
    repeat constructor; [intros [t [=]].. | exact IH].
  - repeat constructor; intros [t [=]].
Qed.

Lemma display_loop_total w dups : forall idx acc,
  Forall (fun e => e.2 ≠ []) dups ->
  exists evs, display_loop w idx dups acc = (evs, Return (acc + spec_total_wasted w dups)) /\
              Forall (fun e => ~ is_total_line e) evs.
Proof.
  induction dups as [|[h fps] dups IH]; intros idx acc Hne.
  - exists []. split; [|constructor]. unfold spec_total_wasted. simpl.
    by rewrite Z.add_0_r.
  - apply Forall_cons in Hne as [Hfps Hne]. simpl in Hfps.
    destruct fps as [|first fps]; [done|].
    destruct (IH (idx + 1) (acc + size (get_file_info w first) * (len (first :: fps) - 1)) Hne)
      as (evs & Hrun & Hevs).
    cbn [display_loop]. rewrite Hrun.
    exists (set_lines w idx h (first :: fps) (size (get_file_info w first))
              (size (get_file_info w first) * (len (first :: fps) - 1)) ++ evs).
    split.
    + do 2 f_equal. unfold spec_total_wasted, sum_of. cbn [map fold_right snd spec_set_wasted].
      ring.
    + apply Forall_app. split; [apply set_lines_no_total | done].
Qed.

(** Every set that [find_duplicates] returns has members, so the
    report never fails on them. *)
Lemma find_duplicates_nonempty w dir rec min_size a :
  Forall (fun e => e.2 ≠ []) (snd (find_duplicates w dir rec min_size a)).
Proof.
  apply Forall_forall. intros [h l] [Hlen _]%find_duplicates_set. simpl.
  intros ->. unfold len in Hlen. simpl in Hlen. lia.
Qed.

(** C3. The figure on the total line of the report is the sum over the
    sets of the first member's size times the number of members less
    one, and no other total line is printed; a set of three files whose
    first member has 100 bytes contributes 200. *)
Theorem total_wasted_is_sum w dups :
  dups ≠ [] -> Forall (fun e => e.2 ≠ []) dups ->
  (exists body,
     display_duplicates w dups =
       (body ++ [Print LRule; Print (LTotalWasted (spec_total_wasted w dups));
                 Print LRule], Return tt) /\
     Forall (fun e => ~ is_total_line e) body) /\
  (forall h f1 f2 f3, size (get_file_info w f1) = 100 ->
     spec_total_wasted w (dups ++ [(h, [f1; f2; f3])]) = spec_total_wasted w dups + 200).
Proof.
  intros Hne Hall. split.
  - destruct (display_loop_total w dups 1 0 Hall) as (evs & Hrun & Hevs).
    unfold display_duplicates. destruct dups as [|e dups]; [done|].
    rewrite Hrun. rewrite Z.add_0_l.
    eexists (_ :: _ :: _ :: evs). split; [done|].
    repeat constructor; try (intros [t [=]]). done.
  - intros h f1 f2 f3 Hsize. unfold spec_total_wasted.
    rewrite map_app. unfold sum_of. rewrite fold_right_app. simpl.
    rewrite Hsize. change (len [f1; f2; f3]) with 3.
    generalize (map (fun e : string * list string => spec_set_wasted w e.2) dups).
    intros l. induction l as [|x l IH]; simpl; lia.
Qed.

(** The report of a scan: [display_duplicates] never fails on what
    [find_duplicates] returns, and when sets were found its total line
    carries the specified sum. *)
Lemma report_of_scan w dir rec min_size a :
  snd (find_duplicates w dir rec min_size a) ≠ [] ->
  exists body,
    display_duplicates w (snd (find_duplicates w dir rec min_size a)) =
      (body ++ [Print LRule;
                Print (LTotalWasted
                         (spec_total_wasted w (snd (find_duplicates w dir rec min_size a))));
                Print LRule], Return tt).
Proof.
  intros Hne.
  destruct (display_loop_total w (snd (find_duplicates w dir rec min_size a)) 1 0
              (find_duplicates_nonempty w dir rec min_size a)) as (evs & Hrun & _).
  unfold display_duplicates.
  destruct (snd (find_duplicates w dir rec min_size a)) as [|e dups]; [done|].
  rewrite Hrun, Z.add_0_l. by eexists (_ :: _ :: _ :: evs).
Qed.


End ReportClaims.

Lemma total_wasted_is_sum_witness :
  exists body,
    display_duplicates tree_triple [("64", ["/d/1"; "/d/2"; "/d/3"])] =
      (body ++ [Print LRule; Print (LTotalWasted 200); Print LRule], Return tt).
Proof.
  assert ([("64", ["/d/1"; "/d/2"; "/d/3"])] ≠ @nil (string * list string)) as Hne
    by discriminate.
  assert (Forall (fun e : string * list string => e.2 ≠ [])
            [("64", ["/d/1"; "/d/2"; "/d/3"])]) as Hall
    by (repeat constructor; discriminate).
  destruct (total_wasted_is_sum tree_triple _ Hne Hall) as [(body & Hrun & _) _].
  exists body. exact Hrun.
Defined.


(** * The claims about the root guard *)

Section RootClaims.
Context `{Hashlib} `{Builtins}.
Implicit Types (w : world).

(** C8, as the code has it. On a root that does not resolve to an
    existing directory [find_duplicates] prints one error line and
    returns the empty mapping, with no file opened; nothing is raised.
    [main] then prints the no-duplicates line and returns normally,
    without reading input and without touching the files. *)
Theorem invalid_root_returns_empty w (a : args) stdin :
  valid_root w (arg_directory a) = false ->
  exists l,
    (l = LErrNotExist (resolve w (arg_directory a)) \/
     l = LErrNotDir (resolve w (arg_directory a))) /\
    find_duplicates w (arg_directory a) (negb (arg_no_recursive a)) (arg_min_size a) (arg_hash a)
      = ([Print l], []) /\
    main w a stdin = ([Print l; Print LNoDuplicates], Return tt, w, stdin).
Proof.
  intros Hv. unfold main.
  destruct (find_duplicates_invalid w (arg_directory a) (negb (arg_no_recursive a))
              (arg_min_size a) (arg_hash a) Hv) as [-> | ->];
    eexists; (split; [|split; [reflexivity|]]); eauto; simpl;
    by rewrite andb_false_r.
Qed.

End RootClaims.

(** C8 fails as worded: with a missing root the program prints an error
    line and the no-duplicates line, and returns normally. *)
Lemma missing_root_is_no_error :
  main tree_abcd {| arg_directory := "/nope"; arg_no_recursive := false; arg_min_size := 0;
                    arg_hash := "md5"; arg_delete := true |} ["1"; "y"]
    = ([Print (LErrNotExist "/nope"); Print LNoDuplicates], Return tt,
       tree_abcd, ["1"; "y"]) /\
  ~ ends_in_error
      (main tree_abcd {| arg_directory := "/nope"; arg_no_recursive := false; arg_min_size := 0;
                         arg_hash := "md5"; arg_delete := true |} ["1"; "y"]).
Proof.
  assert (main tree_abcd {| arg_directory := "/nope"; arg_no_recursive := false;
                            arg_min_size := 0; arg_hash := "md5"; arg_delete := true |}
            ["1"; "y"]
          = ([Print (LErrNotExist "/nope"); Print LNoDuplicates], Return tt,
             tree_abcd, ["1"; "y"])) as Hrun by reflexivity.
  split; [exact Hrun|].
  rewrite Hrun. intros [e [=]].
Qed.

Lemma invalid_root_returns_empty_witness :
  valid_root tree_abcd "/d/A" = false /\
  exists l,
    main tree_abcd {| arg_directory := "/d/A"; arg_no_recursive := false; arg_min_size := 0;
                      arg_hash := "sha256"; arg_delete := false |} []
      = ([Print l; Print LNoDuplicates], Return tt, tree_abcd, []).
Proof.
  assert (valid_root tree_abcd "/d/A" = false) as Hv by (vm_compute; reflexivity).
  split; [exact Hv|].
  destruct (invalid_root_returns_empty tree_abcd
              {| arg_directory := "/d/A"; arg_no_recursive := false; arg_min_size := 0;
                 arg_hash := "sha256"; arg_delete := false |} [] Hv) as (l & _ & _ & Hmain).
  exists l. exact Hmain.
Defined.

(** * The claims about the reconciliation workflow *)

Section WorkflowClaims.
Context `{Builtins}.
Implicit Types (w : world) (p : path) (evs : list event) (stdin : list string).

Lemma enumerate_filter_above (l : list path) : forall s t,
  t < s -> map snd (filter (fun e => e.1 ≠ t) (enumerate s l)) = l.
Proof.
  induction l as [|x l IH]; intros s t Hlt; simpl; [done|].
  rewrite filter_cons_True by (simpl; lia). simpl. f_equal. apply IH. lia.
Qed.

Lemma enumerate_filter_at (l : list path) : forall s k,
  0 <= k ->
  map snd (filter (fun e => e.1 ≠ s + k) (enumerate s l))
  = take (Z.to_nat k) l ++ drop (S (Z.to_nat k)) l.
Proof.
  induction l as [|x l IH]; intros s k Hk; simpl.
  - by rewrite take_nil.
  - destruct (decide (k = 0)) as [->|Hne].
    + rewrite filter_cons_False by (simpl; lia). simpl.
      rewrite drop_0. apply enumerate_filter_above. lia.
    + rewrite filter_cons_True by (simpl; lia). simpl.
      replace (Z.to_nat k) with (S (Z.to_nat (k - 1))) by lia. simpl.
      f_equal. replace (s + k) with (s + 1 + (k - 1)) by lia. apply IH. lia.
Qed.

(** The list comprehension keeps every member but the chosen one, in
    the order of the set. *)
Lemma files_to_delete_take_drop (filepaths : list path) (n : Z) :
  1 <= n ->
  files_to_delete_of filepaths (n - 1)
  = take (Z.to_nat (n - 1)) filepaths ++ drop (Z.to_nat n) filepaths.
Proof.
  intros Hn. unfold files_to_delete_of.
  replace (Z.to_nat n) with (S (Z.to_nat (n - 1))) by lia.
  apply (enumerate_filter_at filepaths 0 (n - 1)). lia.
Qed.

Lemma files_to_delete_length (filepaths : list path) (n : Z) :
  1 <= n <= len filepaths ->
  length (files_to_delete_of filepaths (n - 1)) = (length filepaths - 1)%nat.
Proof.
  intros Hn. rewrite files_to_delete_take_drop by lia.
  unfold len in Hn. rewrite length_app, length_take, length_drop. lia.
Qed.

Lemma removes_app evs1 evs2 : removes (evs1 ++ evs2) = removes evs1 ++ removes evs2.
Proof. apply omap_app. Qed.

Lemma removes_prints (ls : list line) : removes (map Print ls) = [].
Proof. induction ls as [|l ls IH]; [done | exact IH]. Qed.

Lemma removes_announce n (ftd : list path) : removes (announce n ftd) = [].
Proof.
  unfold announce.
  change (removes (map (fun f => Print (LBullet f)) ftd ++ [Print LPromptConfirm]) = []).
  rewrite removes_app, app_nil_r.
  induction ftd as [|f ftd IH]; [done | exact IH].
Qed.

Lemma removes_present w idx total first (filepaths : list path) :
  removes (present w idx total first filepaths) = [].
Proof.
  unfold present. rewrite removes_app. simpl.
  generalize (enumerate 1 filepaths). intros l.
  induction l as [|e l IH]; [done | exact IH].
Qed.

(** Every file of the delete list is attempted once, in order, whether
    or not an attempt succeeds. *)
Lemma delete_files_removes (ftd : list path) : forall w,
  removes (delete_files w ftd).1 = ftd.
Proof.
  induction ftd as [|f ftd IH]; intros w; simpl; [done|].
  destruct (os_remove w f) as [w'|].
  - specialize (IH w'). destruct (delete_files w' ftd). simpl in *. by f_equal.
  - specialize (IH w). destruct (delete_files w ftd). simpl in *. by f_equal.
Qed.

(** The prompt loop on a valid index followed by an answer to the
    confirmation. *)
Lemma choice_loop_keep w (filepaths : list path) c conf stdin n :
  keeps n c -> 1 <= n <= len filepaths ->
  choice_loop w filepaths (c :: conf :: stdin) =
    let ftd := files_to_delete_of filepaths (n - 1) in
    if decide (normal conf = "y")
    then (announce (len filepaths) ftd ++ (delete_files w ftd).1, Next,
          (delete_files w ftd).2, stdin)
    else (announce (len filepaths) ftd ++ [Print LCancelledForSet], Next, w, stdin).
Proof.
  intros (Hq & Hs & Hint) Hn. unfold affirmative, normal in *. cbn [choice_loop].
  rewrite decide_False by done. rewrite decide_False by done. rewrite Hint.
  destruct (Z.leb_spec 0 (n - 1)); [|lia].
  destruct (Z.ltb_spec (n - 1) (len filepaths)); [|lia]. cbn [andb].
  destruct (decide (str_lower (str_strip conf) = "y")); [|done].
  by destruct (delete_files w (files_to_delete_of filepaths (n - 1))).
Qed.

Lemma choice_loop_skip w (filepaths : list path) c stdin :
  skips c ->
  choice_loop w filepaths (c :: stdin) =
    ([Print (LPromptKeep (len filepaths)); Print LSkipping], Next, w, stdin).
Proof.
  unfold skips, normal. intros Hs. cbn [choice_loop]. rewrite Hs.
  rewrite decide_False by done. by rewrite decide_True.
Qed.

Lemma choice_loop_abort w (filepaths : list path) c stdin :
  aborts c ->
  choice_loop w filepaths (c :: stdin) =
    ([Print (LPromptKeep (len filepaths)); Print LDeletionCancelled], Quit, w, stdin).
Proof.
  unfold aborts, normal. intros Hq. cbn [choice_loop]. rewrite Hq.
  by rewrite decide_True.
Qed.

(** Running the sets [pre] to their end and then [post] is running
    [pre ++ post]. *)
Lemma delete_loop_app (pre post : duplicates) :
  forall w idx total stdin evs1 w1 stdin1,
  delete_loop w idx total pre stdin = (evs1, Next, w1, stdin1) ->
  delete_loop w idx total (pre ++ post) stdin =
    after evs1 (delete_loop w1 (idx + len pre) total post stdin1).
Proof.
  induction pre as [|[h fps] pre IH]; intros w idx total stdin evs1 w1 stdin1 Hrun.
  - simpl in Hrun. injection Hrun as <- <- <-. unfold after, len. simpl.
    rewrite Z.add_0_r. by destruct (delete_loop w idx total post stdin) as [[[? ?] ?] ?].
  - cbn [delete_loop app] in *. destruct fps as [|first fps]; [done|].
    destruct (choice_loop w (first :: fps) stdin) as [[[evs e] w'] stdin'].
    destruct e; [|done..].
    destruct (delete_loop w' (idx + 1) total pre stdin') as [[[evs' r] w''] stdin'']
      eqn:Hrest.
    injection Hrun as <- -> <- <-.
    rewrite (IH _ _ _ _ _ _ _ Hrest).
    replace (idx + len ((h, first :: fps) :: pre)) with (idx + 1 + len pre)
      by (unfold len; simpl length; lia).
    unfold after. simpl. by rewrite <- !(assoc_L (++)).
Qed.

(** C5. When the answer keeps member [n] of a set and the confirmation
    is affirmative, the delete list is the set without its [n]-th
    member, in the order of the set, and the delete attempts are exactly
    the files of that list: one less than the set has members (two for
    a set of three). When the answer skips the set, nothing is
    attempted. *)
Theorem keep_deletes_all_others w (filepaths : list path) c conf stdin n :
  keeps n c -> 1 <= n <= len filepaths -> affirmative conf ->
  files_to_delete_of filepaths (n - 1)
    = take (Z.to_nat (n - 1)) filepaths ++ drop (Z.to_nat n) filepaths /\
  (exists evs w',
     choice_loop w filepaths (c :: conf :: stdin) = (evs, Next, w', stdin) /\
     removes evs = files_to_delete_of filepaths (n - 1) /\
     length (removes evs) = (length filepaths - 1)%nat) /\
  (forall c', skips c' ->
     exists evs, choice_loop w filepaths (c' :: stdin) = (evs, Next, w, stdin) /\
                 removes evs = []).
Proof.
  intros Hkeep Hn Hyes. split_and!.
  - apply files_to_delete_take_drop. lia.
  - pose proof (choice_loop_keep w filepaths c conf stdin n Hkeep Hn) as Hrun.
    cbv zeta in Hrun. rewrite decide_True in Hrun by done.
    eexists _, _. split; [exact Hrun|].
    rewrite removes_app, removes_announce, delete_files_removes.
    split; [done|]. by apply files_to_delete_length.
  - intros c' Hskip. rewrite (choice_loop_skip w filepaths c' stdin Hskip).
    by eexists.
Qed.

(** C6. After a valid choice, an answer to the confirmation that is not
    ['y'] once stripped and lowered (the empty answer is such a one)
    leaves the set as it is: nothing is attempted, the files are
    unchanged and the loop goes on with the next set. The files of the
    delete list are attempted on ['y'] only. *)
Theorem unconfirmed_set_untouched w idx total h first rest sets c conf stdin n :
  keeps n c -> 1 <= n <= len (first :: rest) ->
  (~ affirmative conf ->
     exists evs,
       choice_loop w (first :: rest) (c :: conf :: stdin) = (evs, Next, w, stdin) /\
       removes evs = [] /\
       delete_loop w idx total ((h, first :: rest) :: sets) (c :: conf :: stdin) =
         after (present w idx total first (first :: rest) ++ evs)
               (delete_loop w (idx + 1) total sets stdin)) /\
  ~ affirmative "" /\
  (affirmative conf ->
     exists evs w',
       choice_loop w (first :: rest) (c :: conf :: stdin) = (evs, Next, w', stdin) /\
       removes evs = files_to_delete_of (first :: rest) (n - 1)).
Proof.
  intros Hkeep Hn. split_and!.
  - intros Hno.
    pose proof (choice_loop_keep w (first :: rest) c conf stdin n Hkeep Hn) as Hrun.
    cbv zeta in Hrun. rewrite decide_False in Hrun by done.
    eexists. split; [exact Hrun|]. split.
    + by rewrite removes_app, removes_announce.
    + cbn [delete_loop]. rewrite Hrun. unfold after.
      destruct (delete_loop w (idx + 1) total sets stdin) as [[[evs' r] w''] stdin''].
      cbn [fst snd]. by rewrite <- !app_assoc.
  - unfold affirmative, normal. rewrite str_strip_empty, str_lower_empty. done.
  - intros Hyes.
    pose proof (choice_loop_keep w (first :: rest) c conf stdin n Hkeep Hn) as Hrun.
    cbv zeta in Hrun. rewrite decide_True in Hrun by done.
    eexists _, _. split; [exact Hrun|].
    by rewrite removes_app, removes_announce, delete_files_removes.
Qed.

(** C7. When the sets before a set were run to their end and the answer
    at that set is the abort, the run ends there: its trace is the
    trace of the sets before, the set as shown, the prompt and the
    cancellation line, whatever sets follow; no delete is attempted
    beyond those of the sets before, and the files are as those sets
    left them. *)
Theorem abort_is_terminal w idx total (pre post : duplicates) h first rest
    c stdin evs1 w1 stdin1 :
  delete_loop w idx total pre stdin = (evs1, Next, w1, c :: stdin1) ->
  aborts c ->
  delete_loop w idx total (pre ++ (h, first :: rest) :: post) stdin =
    (evs1 ++ present w1 (idx + len pre) total first (first :: rest) ++
       [Print (LPromptKeep (len (first :: rest))); Print LDeletionCancelled],
     Quit, w1, stdin1) /\
  removes (delete_loop w idx total (pre ++ (h, first :: rest) :: post) stdin).1.1.1
    = removes evs1 /\
  (interactive_delete w1 ((h, first :: rest) :: post) (c :: stdin1)).1.1.2 = Return tt.
Proof.
  intros Hpre Hq.
  assert (delete_loop w idx total (pre ++ (h, first :: rest) :: post) stdin =
    (evs1 ++ present w1 (idx + len pre) total first (first :: rest) ++
       [Print (LPromptKeep (len (first :: rest))); Print LDeletionCancelled],
     Quit, w1, stdin1)) as Hrun.
  { rewrite (delete_loop_app pre _ _ _ _ _ _ _ _ Hpre).
    cbn [delete_loop]. by rewrite (choice_loop_abort _ _ _ _ Hq). }
  split_and!; [done | |].
  - rewrite Hrun. cbn [fst]. rewrite !removes_app, removes_present.
    cbn [removes omap app]. by rewrite app_nil_r.
  - unfold interactive_delete. cbn [delete_loop].
    by rewrite (choice_loop_abort _ _ _ _ Hq).
Qed.

End WorkflowClaims.

Lemma keep_deletes_all_others_witness :
  exists evs w',
    choice_loop tree_triple ["/d/1"; "/d/2"; "/d/3"] ["1"; "y"] = (evs, Next, w', []) /\
    removes evs = ["/d/2"; "/d/3"] /\
    length (removes evs) = 2%nat.
Proof.
  assert (keeps 1 "1") as Hkeep by (vm_compute; split_and!; [discriminate.. | reflexivity]).
  assert (1 <= 1 <= len ["/d/1"; "/d/2"; "/d/3"]) as Hn by (vm_compute; split; discriminate).
  assert (affirmative "y") as Hyes by reflexivity.
  destruct (keep_deletes_all_others tree_triple ["/d/1"; "/d/2"; "/d/3"] "1" "y" [] 1
              Hkeep Hn Hyes) as (_ & (evs & w' & Hrun & Hrem & Hlen) & _).
  exists evs, w'. split_and!; [exact Hrun | exact Hrem | exact Hlen].
Defined.

Lemma unconfirmed_set_untouched_witness :
  exists evs,
    choice_loop tree_triple ["/d/1"; "/d/2"; "/d/3"] ["2"; ""] = (evs, Next, tree_triple, []) /\
    removes evs = [].
Proof.
  assert (keeps 2 "2") as Hkeep by (vm_compute; split_and!; [discriminate.. | reflexivity]).
  assert (1 <= 2 <= len ["/d/1"; "/d/2"; "/d/3"]) as Hn by (vm_compute; split; discriminate).
  destruct (unconfirmed_set_untouched tree_triple 1 1 "64" "/d/1" ["/d/2"; "/d/3"] []
              "2" "" [] 2 Hkeep Hn) as (Hno & Hempty & _).
  destruct (Hno Hempty) as (evs & Hrun & Hrem & _).
  exists evs. split; [exact Hrun | exact Hrem].
Defined.

Lemma abort_is_terminal_witness :
  exists evs w1,
    delete_loop tree_pairs 1 3
      ([("26", ["/d/a1"; "/d/a2"])] ++ ("e2", ["/d/b1"; "/d/b2"])
         :: [("14", ["/d/c1"; "/d/c2"])])
      ["1"; "y"; "q"; "1"; "y"] = (evs, Quit, w1, ["1"; "y"]) /\
    removes evs = ["/d/a2"] /\
    files w1 !! "/d/a2" = None /\ is_file w1 "/d/b2" = true /\ is_file w1 "/d/c2" = true.
Proof.
  pose (r := delete_loop tree_pairs 1 3 [("26", ["/d/a1"; "/d/a2"])]
               ["1"; "y"; "q"; "1"; "y"]).
  assert (delete_loop tree_pairs 1 3 [("26", ["/d/a1"; "/d/a2"])]
            ["1"; "y"; "q"; "1"; "y"] = (r.1.1.1, Next, r.1.2, "q" :: ["1"; "y"])) as Hpre
    by (vm_compute; reflexivity).
  assert (aborts "q") as Hq by reflexivity.
  destruct (abort_is_terminal tree_pairs 1 3 [("26", ["/d/a1"; "/d/a2"])]
              [("14", ["/d/c1"; "/d/c2"])] "e2" "/d/b1" ["/d/b2"] "q"
              ["1"; "y"; "q"; "1"; "y"] r.1.1.1 r.1.2 ["1"; "y"] Hpre Hq)
    as (Hrun & _ & _).
  eexists _, r.1.2. split; [exact Hrun|].
  split_and!; vm_compute; reflexivity.
Defined.

(** * Further properties of the code *)

(** ** Grouping with [defaultdict(list)] *)

Section GroupingFacts.
Context {K V : Type} `{EqDecision K}.
Implicit Types (d : list (K * list V)) (k : K) (v : V) (l : list V).
Implicit Types (key : V -> option K).

(** Appending and looking up. *)
Lemma dd_get_append k0 k v d :
  dd_get k0 (dd_append k v d) =
  if decide (k0 = k) then Some (default [] (dd_get k d) ++ [v]) else dd_get k0 d.
Proof.
  induction d as [|[k' vs] d IH]; cbn [dd_append dd_get].
  - by destruct (decide (k0 = k)).
  - destruct (decide (k = k')) as [->|Hkk']; cbn [dd_get].
    + destruct (decide (k0 = k')) as [->|Hne]; [done|]. done.
    + destruct (decide (k0 = k')) as [->|Hne].
      * by rewrite decide_False by done.
      * exact IH.
Qed.

Lemma dd_get_elem d k l : NoDup d.*1 -> (k, l) ∈ d <-> dd_get k d = Some l.
Proof.
  induction d as [|[k' vs] d IH]; intros Hnd; cbn [dd_get].
  - split; [by intros ?%elem_of_nil | done].
  - rewrite fmap_cons in Hnd. apply NoDup_cons in Hnd as [Hk' Hnd]. simpl in Hk'.
    rewrite elem_of_cons, (IH Hnd). destruct (decide (k = k')) as [->|Hne].
    + split.
      * intros [[= ->]|Hget]; [done|]. exfalso. apply Hk'.
        apply list_elem_of_fmap. exists (k', l). split; [done|]. by apply IH.
      * intros [= ->]. by left.
    + split; [intros [[= -> ->]|?]; done | by right].
Qed.

Lemma dd_file_NoDup key d x : NoDup d.*1 -> NoDup (dd_file key d x).*1.
Proof.
  intros Hnd. unfold dd_file. destruct (key x); [by apply dd_append_NoDup | done].
Qed.

Lemma nonempty_snoc l v : Some (default [] (nonempty l) ++ [v]) = nonempty (l ++ [v]).
Proof. by destruct l. Qed.

Lemma grouped_step key seen d x :
  grouped key seen d -> grouped key (seen ++ [x]) (dd_file key d x).
Proof.
  intros [Hnd Hget]. split; [by apply dd_file_NoDup|].
  intros k. unfold keyed, dd_file. rewrite filter_app.
  destruct (key x) as [kx|] eqn:Hkx.
  - rewrite dd_get_append. destruct (decide (k = kx)) as [->|Hne].
    + rewrite filter_cons_True, filter_nil by done.
      rewrite Hget. apply nonempty_snoc.
    + rewrite filter_cons_False, filter_nil, app_nil_r by congruence. apply Hget.
  - rewrite filter_cons_False, filter_nil, app_nil_r by congruence. apply Hget.
Qed.

Lemma grouped_fold key xs : forall seen d,
  grouped key seen d -> grouped key (seen ++ xs) (fold_left (dd_file key) xs d).
Proof.
  induction xs as [|x xs IH]; intros seen d Hg; simpl.
  - by rewrite app_nil_r.
  - rewrite (cons_middle x), (assoc_L (++)). by apply IH, grouped_step.
Qed.

Lemma group_by_grouped key xs : grouped key xs (group_by key xs).
Proof.
  apply (grouped_fold key xs [] []). split; [constructor | done].
Qed.

(** A group is the non-empty list of the entries with its key, in the
    order in which they were filed. *)
Lemma group_by_elem key xs k l :
  (k, l) ∈ group_by key xs <-> l ≠ [] /\ l = keyed key k xs.
Proof.
  destruct (group_by_grouped key xs) as [Hnd Hget].
  rewrite (dd_get_elem _ _ _ Hnd), Hget.
  destruct (keyed key k xs) as [|y ys]; simpl.
  - split; [done | by intros [? ->]].
  - split; [by intros [= <-] | by intros [_ ->]].
Qed.

Lemma group_by_app key xs ys :
  fold_left (dd_file key) ys (group_by key xs) = group_by key (xs ++ ys).
Proof. unfold group_by. by rewrite fold_left_app. Qed.

Lemma keyed_elem key k xs x : x ∈ keyed key k xs <-> x ∈ xs /\ key x = Some k.
Proof. unfold keyed. rewrite list_elem_of_filter. tauto. Qed.

(** Two different entries with the same key make a group of at least
    two. *)
Lemma keyed_two key k xs x y :
  x ∈ xs -> y ∈ xs -> x ≠ y -> key x = Some k -> key y = Some k ->
  (2 <= length (keyed key k xs))%nat.
Proof.
  intros Hx Hy Hne Hkx Hky.
  assert (x ∈ keyed key k xs) as Hx' by by apply keyed_elem.
  assert (y ∈ keyed key k xs) as Hy' by by apply keyed_elem.
  destruct (keyed key k xs) as [|a [|b l]]; simpl; [|exfalso|lia].
  - by apply elem_of_nil in Hx'.
  - apply list_elem_of_singleton in Hx', Hy'. congruence.
Qed.
End GroupingFacts.

(** ** The two passes as groupings *)

Section PassFacts.
Context `{Hashlib} `{Builtins}.
Implicit Types (w : world) (p q : path) (st : hash_state).

Lemma scan_step_file w min_size d c p :
  scan_step w min_size (d, c) p =
  (dd_file (size_key w min_size) d p,
   c + (if size_key w min_size p is Some _ then 1 else 0)).
Proof.
  unfold scan_step, dd_file, size_key.
  destruct (is_file w p); [|f_equal; lia].
  destruct (os_stat w p) as [sr|]; [|f_equal; lia].
  destruct (min_size <=? st_size sr); f_equal; lia.
Qed.

Lemma scan_fold w min_size paths : forall d c,
  fold_left (scan_step w min_size) paths (d, c) =
  (fold_left (dd_file (size_key w min_size)) paths d,
   c + len (filter (fun p => is_Some (size_key w min_size p)) paths)).
Proof.
  induction paths as [|p paths IH]; intros d c.
  - simpl. f_equal. unfold len. simpl. lia.
  - cbn [fold_left]. rewrite scan_step_file, IH. f_equal.
    destruct (size_key w min_size p) as [s|] eqn:Hkey.
    + rewrite filter_cons_True by (rewrite Hkey; by eexists).
      unfold len. cbn [length]. lia.
    + rewrite filter_cons_False by (rewrite Hkey; by intros [? [=]]). lia.
Qed.

Lemma size_pass_group w min_size paths :
  size_pass w min_size paths =
  (group_by (size_key w min_size) paths,
   len (filter (fun p => is_Some (size_key w min_size p)) paths)).
Proof. unfold size_pass. by rewrite scan_fold. Qed.

Lemma size_buckets_group w dir rec min_size :
  size_buckets w dir rec min_size = group_by (size_key w min_size) (listing w dir rec).
Proof. unfold size_buckets, listing. by rewrite size_pass_group. Qed.

Lemma hash_file_map w a n st p :
  hash_map (hash_file w a n st p) = dd_file (digest_key w a) (hash_map st) p.
Proof.
  unfold hash_file, get_file_hash, dd_file, digest_key.
  destruct (hash_of w p a) as [d|]; [|done]. by destruct (truthy (Some d)).
Qed.

Lemma opens_app evs1 evs2 : opens (evs1 ++ evs2) = opens evs1 ++ opens evs2.
Proof. apply omap_app. Qed.

Lemma hash_file_opens w a n st p :
  opens (log (hash_file w a n st p)) = opens (log st) ++ [p].
Proof.
  unfold hash_file, get_file_hash.
  destruct (hash_of w p a) as [d|]; [destruct (truthy (Some d))|]; cbn [log].
  - rewrite !opens_app. by destruct (_ =? 0).
  - by rewrite opens_app.
  - by rewrite opens_app.
Qed.

Lemma hash_files_fold w a n l : forall st,
  hash_map (fold_left (hash_file w a n) l st)
    = fold_left (dd_file (digest_key w a)) l (hash_map st) /\
  opens (log (fold_left (hash_file w a n) l st)) = opens (log st) ++ l.
Proof.
  induction l as [|p l IH]; intros st; cbn [fold_left].
  - by rewrite app_nil_r.
  - destruct (IH (hash_file w a n st p)) as [-> ->].
    rewrite hash_file_map, hash_file_opens. by rewrite <- app_assoc.
Qed.

Lemma hash_buckets_fold w a n sm : forall st,
  hash_map (fold_left (hash_bucket w a n) sm st)
    = fold_left (dd_file (digest_key w a)) (candidates sm) (hash_map st) /\
  opens (log (fold_left (hash_bucket w a n) sm st)) = opens (log st) ++ candidates sm.
Proof.
  induction sm as [|b sm IH]; intros st; cbn [fold_left].
  - by rewrite app_nil_r.
  - destruct (IH (hash_bucket w a n st b)) as [-> ->].
    rewrite candidates_cons, fold_left_app. unfold hash_bucket.
    destruct (1 <? len b.2).
    + destruct (hash_files_fold w a n b.2 st) as [-> ->]. by rewrite <- app_assoc.
    + done.
Qed.

Lemma hash_pass_group w a n sm :
  hash_map (hash_pass w a n sm) = group_by (digest_key w a) (candidates sm) /\
  opens (log (hash_pass w a n sm)) = candidates sm.
Proof. unfold hash_pass. by destruct (hash_buckets_fold w a n sm
         {| hash_map := []; hashed := 0; log := [] |}) as [-> ->]. Qed.

(** What [find_duplicates] returns and reads, on a root that passes the
    guards. *)
Lemma find_duplicates_group w dir rec min_size a :
  valid_root w dir = true ->
  snd (find_duplicates w dir rec min_size a)
    = keep_duplicates (group_by (digest_key w a)
                         (candidates (size_buckets w dir rec min_size))) /\
  opens (fst (find_duplicates w dir rec min_size a))
    = candidates (size_buckets w dir rec min_size).
Proof.
  unfold valid_root, find_duplicates, size_buckets.
  intros [-> ->]%andb_prop. cbn [negb].
  destruct (size_pass _ _ _) as [sm fc]. cbn [fst].
  destruct (Z.eqb_spec (count_files_to_hash sm) 0) as [Hz|Hnz]; cbn [fst snd].
  - by rewrite (count_zero_candidates _ Hz).
  - destruct (hash_pass_group w a (count_files_to_hash sm) sm) as [-> Hop].
    split; [done|]. rewrite !opens_app, Hop. done.
Qed.

End PassFacts.

(** ** What the scan finds *)

Section ScanResults.
Context `{Hashlib} `{Builtins}.
Implicit Types (w : world) (p q : path).

Lemma size_key_Some w min_size p s :
  size_key w min_size p = Some s <->
  is_file w p = true /\ stat_size w p = Some s /\ min_size <= s.
Proof.
  unfold size_key, stat_size. destruct (is_file w p); [|split; [done | by intros [? _]]].
  destruct (os_stat w p) as [sr|]; simpl; [|split; [done | by intros (_ & ? & _)]].
  destruct (Z.leb_spec min_size (st_size sr)); split.
  - intros [= <-]. done.
  - intros (_ & [= <-] & _). done.
  - done.
  - intros (_ & [= <-] & ?). lia.
Qed.

Lemma digest_key_Some w a p d :
  digest_key w a p = Some d <-> hash_of w p a = Some d /\ d ≠ "".
Proof.
  unfold digest_key, truthy. destruct (hash_of w p a) as [d'|]; [|split; [done | by intros [? _]]].
  destruct (String.eqb_spec d' ""); simpl; split.
  - done.
  - intros [[= <-] ?]. done.
  - intros [= <-]. done.
  - by intros [[= <-] _].
Qed.

Lemma candidates_group w dir rec min_size p :
  p ∈ candidates (size_buckets w dir rec min_size) <->
  exists s, size_key w min_size p = Some s /\ p ∈ listing w dir rec /\
            1 < len (keyed (size_key w min_size) s (listing w dir rec)).
Proof.
  rewrite candidates_elem, size_buckets_group. split.
  - intros (s & l & [_ ->]%group_by_elem & [Hp Hk]%keyed_elem & Hlen). eauto.
  - intros (s & Hk & Hp & Hlen). exists s, (keyed (size_key w min_size) s (listing w dir rec)).
    split_and!; [|by apply keyed_elem | done].
    apply group_by_elem. split; [|done]. intros Hnil. rewrite Hnil in Hlen. done.
Qed.

(** X1. The bucket of size [s] lists exactly the entries of the
    traversal that are regular files, can be stat-ed, have size [s] and
    are not below [min_size], in the order of the traversal; there is no
    empty bucket. *)
Theorem size_bucket_exact w dir rec min_size s l :
  (s, l) ∈ size_buckets w dir rec min_size <->
  l ≠ [] /\
  l = filter (fun p => is_file w p = true /\ stat_size w p = Some s /\ min_size <= s)
             (listing w dir rec).
Proof.
  rewrite size_buckets_group, group_by_elem. unfold keyed.
  rewrite (list_filter_iff _ (fun p => is_file w p = true /\ stat_size w p = Some s /\
                                       min_size <= s)); [done|].
  intros p. apply size_key_Some.
Qed.

Lemma find_duplicates_keyed w dir rec min_size a d l :
  valid_root w dir = true ->
  (d, l) ∈ snd (find_duplicates w dir rec min_size a) <->
  1 < len l /\
  l = filter (fun p => hash_of w p a = Some d /\ d ≠ "")
             (candidates (size_buckets w dir rec min_size)).
Proof.
  intros Hv. destruct (find_duplicates_group w dir rec min_size a Hv) as [-> _].
  unfold keep_duplicates. rewrite list_elem_of_filter, group_by_elem. cbn [snd].
  unfold keyed.
  rewrite (list_filter_iff _ (fun p => hash_of w p a = Some d /\ d ≠ ""))
    by (intros p; apply digest_key_Some).
  split; [tauto|]. intros [Hlen ->]. split_and!; [done | | done].
  intros Hnil. rewrite Hnil in Hlen. done.
Qed.

(** X2. On a valid root the set returned under digest [d] lists exactly
    the candidates whose content hashes to [d], in the order in which they
    were hashed, and it is returned exactly when there are two or more of
    them. *)
Theorem returned_set_exact w dir rec min_size a d l :
  valid_root w dir = true ->
  (d, l) ∈ snd (find_duplicates w dir rec min_size a) <->
  1 < len l /\
  l = filter (fun p => hash_of w p a = Some d /\ d ≠ "")
             (candidates (size_buckets w dir rec min_size)).
Proof. apply find_duplicates_keyed. Qed.

(** X3. Detection is complete: on a valid root, two different entries of
    the traversal that are both filed under the same size and whose
    contents hash to the same non-empty digest are members of one
    returned set, the one under that digest. *)
Theorem duplicates_found w dir rec min_size a p q s d :
  valid_root w dir = true ->
  p ∈ listing w dir rec -> q ∈ listing w dir rec -> p ≠ q ->
  size_key w min_size p = Some s -> size_key w min_size q = Some s ->
  hash_of w p a = Some d -> hash_of w q a = Some d -> d ≠ "" ->
  exists l, (d, l) ∈ snd (find_duplicates w dir rec min_size a) /\ p ∈ l /\ q ∈ l.
Proof.
  intros Hv Hp Hq Hne Hsp Hsq Hdp Hdq Hd.
  pose proof (keyed_two (size_key w min_size) s (listing w dir rec) p q
                Hp Hq Hne Hsp Hsq) as Hlen.
  assert (forall x, x ∈ listing w dir rec -> size_key w min_size x = Some s ->
            x ∈ candidates (size_buckets w dir rec min_size)) as Hcand.
  { intros x Hx Hsx. apply candidates_group. exists s. unfold len. split_and!; [done..|lia]. }
  exists (filter (fun x => hash_of w x a = Some d /\ d ≠ "")
            (candidates (size_buckets w dir rec min_size))).
  split_and!.
  - apply find_duplicates_keyed; [done|]. split; [|done].
    pose proof (keyed_two (digest_key w a) d (candidates (size_buckets w dir rec min_size))
                  p q (Hcand p Hp Hsp) (Hcand q Hq Hsq) Hne) as Hlen2.
    unfold keyed in Hlen2.
    rewrite (list_filter_iff _ (fun p => hash_of w p a = Some d /\ d ≠ "")) in Hlen2
      by (intros x; apply digest_key_Some).
    unfold len. apply Nat2Z.inj_lt with (n := 1%nat).
    apply Hlen2; by apply digest_key_Some.
  - apply list_elem_of_filter. eauto.
  - apply list_elem_of_filter. eauto.
Qed.

End ScanResults.

(** ** Reads, counts and the shape of the result *)

Section ResultShape.
Context `{Hashlib} `{Builtins}.
Implicit Types (w : world) (p q : path).

Lemma dd_values_filter_sublist {K V} (P : K * list V -> Prop)
    `{forall e, Decision (P e)} (d : list (K * list V)) :
  dd_values (filter P d) `sublist_of` dd_values d.
Proof.
  unfold dd_values. induction d as [|e d IH]; [done|].
  destruct (decide (P e)).
  - rewrite filter_cons_True by done. simpl. by apply sublist_app.
  - rewrite filter_cons_False by done. simpl. by apply sublist_inserts_l.
Qed.

Lemma keys_filter_NoDup {K V} (P : K * list V -> Prop)
    `{forall e, Decision (P e)} (d : list (K * list V)) :
  NoDup d.*1 -> NoDup (filter P d).*1.
Proof.
  induction d as [|e d IH]; [done|]. rewrite fmap_cons. intros [Hk Hnd]%NoDup_cons.
  destruct (decide (P e)).
  - rewrite filter_cons_True by done. rewrite fmap_cons. apply NoDup_cons. split; [|auto].
    intros (e' & He & [_ Hin]%list_elem_of_filter)%list_elem_of_fmap.
    apply Hk. apply list_elem_of_fmap. eauto.
  - rewrite filter_cons_False by done. auto.
Qed.

Lemma dd_values_fold {K V} `{EqDecision K} (key : V -> option K) (xs : list V) :
  forall d, dd_values (fold_left (dd_file key) xs d)
            ≡ₚ dd_values d ++ filter (fun x => is_Some (key x)) xs.
Proof.
  induction xs as [|x xs IH]; intros d; cbn [fold_left].
  - by rewrite app_nil_r.
  - rewrite IH. unfold dd_file. destruct (key x) as [k|] eqn:Hk.
    + rewrite dd_values_append, filter_cons_True by (rewrite Hk; by eexists).
      by rewrite <- app_assoc.
    + by rewrite filter_cons_False by (rewrite Hk; by intros [? [=]]).
Qed.

Lemma dd_values_group_NoDup {K V} `{EqDecision K} (key : V -> option K) (xs : list V) :
  NoDup xs -> NoDup (dd_values (group_by key xs)).
Proof.
  intros Hnd. unfold group_by. rewrite dd_values_fold. simpl. by apply NoDup_filter.
Qed.

Lemma candidates_NoDup w dir rec min_size :
  NoDup (listing w dir rec) -> NoDup (candidates (size_buckets w dir rec min_size)).
Proof.
  intros Hnd. unfold candidates. eapply sublist_NoDup; [|apply dd_values_filter_sublist].
  rewrite size_buckets_group. by apply dd_values_group_NoDup.
Qed.

Lemma count_files_to_hash_candidates (sm : size_map) :
  count_files_to_hash sm = len (candidates sm).
Proof.
  induction sm as [|b sm IH]; [done|].
  rewrite count_files_to_hash_cons, candidates_cons, IH. unfold len.
  rewrite length_app. destruct (1 <? Z.of_nat (length b.2)); simpl; lia.
Qed.

(** X4. The files whose content is read are exactly the candidates, each
    read once for each time the traversal lists it, in bucket order; on a
    root that fails the guards nothing is read. When the traversal lists
    no path twice, no file is read twice. *)
Theorem candidates_read_once w dir rec min_size a :
  opens (fst (find_duplicates w dir rec min_size a))
    = (if valid_root w dir then candidates (size_buckets w dir rec min_size) else []) /\
  (NoDup (listing w dir rec) ->
   NoDup (opens (fst (find_duplicates w dir rec min_size a)))).
Proof.
  assert (opens (fst (find_duplicates w dir rec min_size a))
          = (if valid_root w dir then candidates (size_buckets w dir rec min_size) else []))
    as Hopens.
  { destruct (valid_root w dir) eqn:Hv.
    - by destruct (find_duplicates_group w dir rec min_size a Hv) as [_ ->].
    - by destruct (find_duplicates_invalid w dir rec min_size a Hv) as [-> | ->]. }
  split; [done|]. intros Hnd. rewrite Hopens.
  destruct (valid_root w dir); [by apply candidates_NoDup | constructor].
Qed.

(** X5. On a valid root the number printed as found is the number of
    entries that pass the filters of the first pass. When no two of them
    share a size, the no-potential-duplicates line is printed and the
    empty mapping is returned; otherwise the number printed as to be
    hashed is the number of candidates. *)
Theorem printed_counts w dir rec min_size a :
  valid_root w dir = true ->
  Print (LFoundFiles (len (filter (fun p => is_Some (size_key w min_size p))
                                  (listing w dir rec))))
    ∈ fst (find_duplicates w dir rec min_size a) /\
  (candidates (size_buckets w dir rec min_size) = [] ->
     Print LNoPotentialDuplicates ∈ fst (find_duplicates w dir rec min_size a) /\
     snd (find_duplicates w dir rec min_size a) = []) /\
  (candidates (size_buckets w dir rec min_size) ≠ [] ->
     Print (LHashing (len (candidates (size_buckets w dir rec min_size))))
       ∈ fst (find_duplicates w dir rec min_size a)).
Proof.
  unfold valid_root, find_duplicates, size_buckets, listing.
  intros [-> ->]%andb_prop. cbn [negb].
  rewrite size_pass_group. cbn [fst].
  set (sm := group_by _ _). rewrite count_files_to_hash_candidates.
  destruct (Z.eqb_spec (len (candidates sm)) 0) as [Hz|Hnz]; cbn [fst snd].
  - split_and!.
    + right. right. left.
    + intros _. split; [|done]. do 3 right. left.
    + intros Hne. destruct (candidates sm); [done|]. unfold len in Hz. simpl in Hz. lia.
  - split_and!.
    + right. right. left.
    + intros Hnil. rewrite Hnil in Hnz. done.
    + intros _. do 3 right. left.
Qed.

(** X6. The returned mapping is well formed: no digest keys two sets, no
    key is the empty string, every set has at least two members, and each
    member is a regular file that could be stat-ed and is not below
    [min_size]. When the traversal lists no path twice, no path is a
    member twice, within a set or across sets. *)
Theorem returned_sets_well_formed w dir rec min_size a :
  NoDup (snd (find_duplicates w dir rec min_size a)).*1 /\
  (forall d l, (d, l) ∈ snd (find_duplicates w dir rec min_size a) ->
     d ≠ "" /\ (2 <= length l)%nat /\
     forall p, p ∈ l ->
       is_file w p = true /\ exists s, stat_size w p = Some s /\ min_size <= s) /\
  (NoDup (listing w dir rec) ->
   NoDup (dd_values (snd (find_duplicates w dir rec min_size a)))).
Proof.
  destruct (valid_root w dir) eqn:Hv.
  - destruct (find_duplicates_group w dir rec min_size a Hv) as [Hres _].
    split_and!.
    + rewrite Hres. apply keys_filter_NoDup, group_by_grouped.
    + intros d l Hin. split_and!.
      * rewrite Hres in Hin. apply list_elem_of_filter in Hin as [_ Hin].
        apply group_by_elem in Hin as [Hne ->].
        destruct (keyed _ d _) as [|x xs] eqn:Hk; [done|].
        assert (x ∈ keyed (digest_key w a) d
                      (candidates (size_buckets w dir rec min_size))) as Hx
          by (rewrite Hk; left).
        apply keyed_elem in Hx as [_ Hx]. by apply digest_key_Some in Hx as [_ ?].
      * apply find_duplicates_set in Hin as [Hlen _]. unfold len in Hlen. lia.
      * intros p Hp.
        destruct (find_duplicates_member w dir rec min_size a d l p Hin Hp) as (Hc & _).
        apply candidates_group in Hc as (s & Hs & _).
        apply size_key_Some in Hs as (? & ? & ?). eauto.
    + intros Hnd. rewrite Hres.
      eapply sublist_NoDup; [|apply dd_values_filter_sublist].
      by apply dd_values_group_NoDup, candidates_NoDup.
  - destruct (find_duplicates_invalid w dir rec min_size a Hv) as [-> | ->]; simpl;
      (split_and!; [constructor | by intros ?? ?%elem_of_nil | intros; constructor]).
Qed.

End ResultShape.

(** ** Deleting *)

Section DeleteFacts.
Context `{Builtins}.
Implicit Types (w : world) (p f : path) (evs : list event) (stdin : list string).





End DeleteFacts.

(** ** The workflow as a whole *)

Section WorkflowFacts.
Context `{Builtins}.
Implicit Types (w : world) (p f : path) (evs : list event) (stdin : list string).






End WorkflowFacts.

(** ** What a run can delete *)

Section RunSafety.
Context `{Hashlib} `{Builtins}.
Implicit Types (w : world) (p : path) (evs : list event) (stdin : list string).








End RunSafety.

Section RunTheorems.
Context `{Hashlib} `{Builtins}.
Implicit Types (w : world) (p : path) (evs : list event) (stdin : list string).







End RunTheorems.

Section PromptTheorems.
Context `{Builtins}.
Implicit Types (w : world) (stdin : list string).

(** X13. Answers that are neither ['q'], ['s'] nor the index of a member
    only make the prompt come again, each with its invalid-choice or
    invalid-input line: the run goes on as if they had not been given, and
    when the input ends after them, [EOFError] is raised with no deletion
    attempted and the files as they were. *)
Theorem invalid_answers_reprompt w (fps : list path) (bad : list string) stdin :
  Forall (invalid_choice (len fps)) bad ->
  choice_loop w fps (bad ++ stdin) =
    after (concat (map (fun c => [Print (LPromptKeep (len fps));
                                  Print (invalid_line (len fps) c)]) bad))
          (choice_loop w fps stdin) /\
  exists evs, choice_loop w fps bad = (evs, Raised EOFError, w, []) /\ removes evs = [].
Proof.
  intros Hbad.
  assert (forall stdin, choice_loop w fps (bad ++ stdin) =
    after (concat (map (fun c => [Print (LPromptKeep (len fps));
                                  Print (invalid_line (len fps) c)]) bad))
          (choice_loop w fps stdin)) as Hgo.
  { clear stdin. intros stdin. induction Hbad as [|c bad (Hq & Hs & Hint) _ IH].
    - unfold after. cbn [app concat map].
      by destruct (choice_loop w fps stdin) as [[[? ?] ?] ?].
    - unfold invalid_line, normal in *. cbn [app choice_loop].
      rewrite !decide_False by done. rewrite IH.
      destruct (choice_loop w fps stdin) as [[[evs r] w'] rest]. unfold after.
      cbn [fst snd map concat app].
      destruct (int_of_str (str_lower (str_strip c))) as [n|]; [|done].
      destruct (Z.leb_spec 0 (n - 1)); [|done].
      destruct (Z.ltb_spec (n - 1) (len fps)); [|done]. lia. }
  split; [apply Hgo|].
  specialize (Hgo []). rewrite app_nil_r in Hgo. rewrite Hgo.
  eexists. split; [done|]. cbn [choice_loop fst]. rewrite removes_app. cbn [removes omap app].
  rewrite app_nil_r. clear. induction bad as [|c bad IH]; [done | exact IH].
Qed.

End PromptTheorems.

(** ** [get_category] *)

Section CategoryFacts.
Context `{Builtins}.

Lemma first_category_owner (table : list (string * list string)) ext category extensions :
  NoDup (concat (map snd table)) ->
  (category, extensions) ∈ table -> ext ∈ extensions ->
  first_category ext table = Some category.
Proof.
  induction table as [|[c es] table IH]; cbn [first_category map concat snd].
  - by intros _ ?%elem_of_nil.
  - intros (Hes & Hsep & Hrest)%NoDup_app [[= -> ->]|Hin]%elem_of_cons Hext.
    + by rewrite bool_decide_eq_true_2.
    + rewrite bool_decide_eq_false_2; [by apply IH|].
      intros Hes'. apply (Hsep ext Hes').
      apply list_elem_of_In, in_concat. exists extensions. split.
      * apply in_map_iff. exists (category, extensions). split; [done|].
        by apply list_elem_of_In.
      * by apply list_elem_of_In.
Qed.

Lemma first_category_key (table : list (string * list string)) ext category :
  first_category ext table = Some category ->
  exists extensions, (category, extensions) ∈ table /\ ext ∈ extensions.
Proof.
  induction table as [|[c es] table IH]; cbn [first_category]; [done|].
  destruct (bool_decide (ext ∈ es)) eqn:Hes.
  - intros [= <-]. exists es. split; [left | by apply bool_decide_eq_true in Hes].
  - intros (extensions & Hin & Hext)%IH. exists extensions. split; [by right | done].
Qed.

Lemma first_category_none (table : list (string * list string)) ext :
  first_category ext table = None <->
  forall category extensions, (category, extensions) ∈ table -> ext ∉ extensions.
Proof.
  induction table as [|[c es] table IH]; cbn [first_category].
  - split; [by intros _ ?? ?%elem_of_nil | done].
  - destruct (bool_decide (ext ∈ es)) eqn:Hes.
    + split; [done|]. intros Hall. apply bool_decide_eq_true in Hes.
      exfalso. apply (Hall c es); [left | done].
    + rewrite IH. apply bool_decide_eq_false in Hes. split.
      * intros Hall category extensions [[= -> ->]|Hin]%elem_of_cons; [done | by eapply Hall].
      * intros Hall category extensions Hin. apply (Hall category extensions). by right.
Qed.

Lemma FILE_CATEGORIES_disjoint : NoDup (concat (map snd FILE_CATEGORIES)).
Proof. refine (bool_decide_unpack _ _). vm_compute. exact I. Qed.

(** X14. An extension that, lowered, is listed under a category of the
    table is given that category, since no extension is listed twice;
    an extension that is listed nowhere is given ['Others']; and the
    answer is always a key of the table. *)
Theorem get_category_table file_extension :
  (forall category extensions,
     (category, extensions) ∈ FILE_CATEGORIES ->
     str_lower file_extension ∈ extensions ->
     get_category file_extension = category) /\
  ((forall category extensions,
      (category, extensions) ∈ FILE_CATEGORIES ->
      str_lower file_extension ∉ extensions) ->
   get_category file_extension = "Others") /\
  get_category file_extension ∈ FILE_CATEGORIES.*1.
Proof.
  unfold get_category. split_and!.
  - intros category extensions Hin Hext.
    by rewrite (first_category_owner _ _ _ _ FILE_CATEGORIES_disjoint Hin Hext).
  - intros Hnone. apply first_category_none in Hnone. by rewrite Hnone.
  - destruct (first_category _ _) as [category|] eqn:Hc.
    + apply first_category_key in Hc as (extensions & Hin & _).
      apply list_elem_of_fmap. by exists (category, extensions).
    + refine (bool_decide_unpack _ _). vm_compute. exact I.
Qed.

End CategoryFacts.

(** ** The further properties on sample trees *)

Lemma returned_set_exact_witness :
  valid_root tree_abcd "/d" = true /\
  ("0d", ["/d/A"; "/d/B"]) ∈ snd (find_duplicates tree_abcd "/d" true 0 "md5").
Proof.
  assert (valid_root tree_abcd "/d" = true) as Hv by (vm_compute; reflexivity).
  split; [exact Hv|].
  apply (proj2 (returned_set_exact tree_abcd "/d" true 0 "md5" "0d" ["/d/A"; "/d/B"] Hv)).
  split; vm_compute; reflexivity.
Defined.

Lemma duplicates_found_witness :
  exists l, ("0d", l) ∈ snd (find_duplicates tree_abcd "/d" true 0 "md5") /\
            "/d/A" ∈ l /\ "/d/B" ∈ l.
Proof.
  assert (valid_root tree_abcd "/d" = true) as Hv by (vm_compute; reflexivity).
  assert ("/d/A" ∈ listing tree_abcd "/d" true) as HA by (vm_compute; left).
  assert ("/d/B" ∈ listing tree_abcd "/d" true) as HB by (vm_compute; right; left).
  assert ("/d/A" ≠ "/d/B") as Hne by discriminate.
  assert (size_key tree_abcd 0 "/d/A" = Some 10) as HsA by (vm_compute; reflexivity).
  assert (size_key tree_abcd 0 "/d/B" = Some 10) as HsB by (vm_compute; reflexivity).
  assert (hash_of tree_abcd "/d/A" "md5" = Some "0d") as HdA by (vm_compute; reflexivity).
  assert (hash_of tree_abcd "/d/B" "md5" = Some "0d") as HdB by (vm_compute; reflexivity).
  assert ("0d" ≠ "") as Hd by discriminate.
  exact (duplicates_found tree_abcd "/d" true 0 "md5" "/d/A" "/d/B" 10 "0d"
           Hv HA HB Hne HsA HsB HdA HdB Hd).
Defined.

Lemma printed_counts_witness :
  valid_root tree_abcd "/d" = true /\
  Print (LFoundFiles 4) ∈ fst (find_duplicates tree_abcd "/d" true 0 "md5") /\
  Print (LHashing 3) ∈ fst (find_duplicates tree_abcd "/d" true 0 "md5").
Proof.
  assert (valid_root tree_abcd "/d" = true) as Hv by (vm_compute; reflexivity).
  split; [exact Hv|].
  destruct (printed_counts tree_abcd "/d" true 0 "md5" Hv) as (Hfound & _ & Hhash).
  assert (candidates (size_buckets tree_abcd "/d" true 0) ≠ []) as Hne
    by (vm_compute; discriminate).
  split; [exact Hfound | exact (Hhash Hne)].
Defined.




Lemma invalid_answers_reprompt_witness :
  exists evs, choice_loop tree_triple ["/d/1"; "/d/2"; "/d/3"] ["x"; "0"; "7"]
              = (evs, Raised EOFError, tree_triple, []) /\ removes evs = [].
Proof.
  assert (invalid_choice 3 "x") as H1
    by (split_and!; [vm_compute; discriminate.. | exact I]).
  assert (invalid_choice 3 "0") as H2
    by (split_and!; [vm_compute; discriminate.. | change (~ (1 <= 0 <= 3)); lia]).
  assert (invalid_choice 3 "7") as H3
    by (split_and!; [vm_compute; discriminate.. | change (~ (1 <= 7 <= 3)); lia]).
  assert (Forall (invalid_choice (len ["/d/1"; "/d/2"; "/d/3"])) ["x"; "0"; "7"]) as Hbad
    by (apply List.Forall_cons; [exact H1|]; apply List.Forall_cons; [exact H2|];
        apply List.Forall_cons; [exact H3|]; apply List.Forall_nil).
  exact (proj2 (invalid_answers_reprompt tree_triple ["/d/1"; "/d/2"; "/d/3"]
                  ["x"; "0"; "7"] [] Hbad)).
Defined.

(** ** [organize_files] *)

Section OrganizerFacts.
Context `{Builtins} `{Pathlib}.
Implicit Types (w : world) (item dest : path) (evs : list org_event).

Lemma free_dest_spec w dest_folder original_dest : forall fuel c d dest,
  free_dest fuel w dest_folder original_dest c d = Some dest ->
  path_exists w dest = false /\
  (dest = d \/
   (path_exists w d = true /\
    exists c', c <= c' /\ dest = tried_dest dest_folder original_dest c' /\
      forall j, c <= j < c' ->
        path_exists w (tried_dest dest_folder original_dest j) = true)).
Proof.
  induction fuel as [|fuel IH]; intros c d dest; cbn [free_dest]; [done|].
  destruct (path_exists w d) eqn:Hd.
  - intros Hrun. apply IH in Hrun as [Hfree Hform]. split; [done|]. right.
    split; [done|]. destruct Hform as [->|(Hc & c' & Hle & -> & Hall)].
    + exists c. split_and!; [lia | done | intros j ?; lia].
    + exists c'. split_and!; [lia | done |].
      intros j Hj. destruct (decide (j = c)) as [->|?]; [done|]. apply Hall. lia.
  - intros [= <-]. split; [done | by left].
Qed.

Lemma plan_items_spec fuel w directory items : forall acc plan stats,
  plan_items fuel w directory items acc = Some (plan, stats) ->
  exists added,
    plan = acc.1 ++ added /\
    map (fun e => e.1.1) added = filter (visible w) items /\
    Forall (planned_well w directory) added.
Proof.
  induction items as [|item items IH]; intros [plan0 stats0] plan stats; cbn [plan_items].
  - intros [= <- <-]. exists []. by rewrite app_nil_r.
  - unfold plan_item.
    destruct (is_dir w item || startswith (name item) ".") eqn:Hskip.
    + intros (added & -> & Hsrc & Hwell)%IH. exists added. split_and!; [done | | done].
      rewrite filter_cons_False; [done|]. intros [Hd Hn]. by rewrite Hd, Hn in Hskip.
    + apply orb_false_elim in Hskip as [Hd Hn].
      destruct (free_dest _ _ _ _ _ _) as [dest|] eqn:Hfree; [|done].
      intros (added & -> & Hsrc & Hwell)%IH. cbn [fst] in *.
      exists ((item, dest, get_category (path_suffix item)) :: added).
      split_and!.
      * by rewrite <- app_assoc.
      * rewrite filter_cons_True by done. cbn [map fst]. by f_equal.
      * apply List.Forall_cons; [|done]. split; [done|]. cbn [fst snd].
        apply free_dest_spec in Hfree as [Hfree Hform]. split; [done|].
        destruct Hform as [?|?]; [by left | by right].
Qed.

Lemma moves_app evs1 evs2 : moves (evs1 ++ evs2) = moves evs1 ++ moves evs2.
Proof. apply omap_app. Qed.

Lemma mkdirs_app evs1 evs2 : mkdirs (evs1 ++ evs2) = mkdirs evs1 ++ mkdirs evs2.
Proof. apply omap_app. Qed.

Lemma planned_app evs1 evs2 : planned (evs1 ++ evs2) = planned evs1 ++ planned evs2.
Proof. apply omap_app. Qed.

(** The moving loop asks for each move in turn, whatever the earlier
    moves did, until it ends or a [mkdir] raises. *)
Lemma move_files_moves (plan : list (path * path * string)) : forall w,
  planned (move_files w plan).1.1 = [] /\
  moves (move_files w plan).1.1 `prefix_of` map (fun e => (e.1.1, e.1.2)) plan /\
  ((move_files w plan).1.2 = Finished ->
   moves (move_files w plan).1.1 = map (fun e => (e.1.1, e.1.2)) plan /\
   mkdirs (move_files w plan).1.1 = map (fun e => path_parent e.1.2) plan).
Proof.
  induction plan as [|[[source dest] category] plan IH]; intros w; cbn [move_files].
  - done.
  - destruct (mkdir_exist_ok w (path_parent dest)) as [w1|].
    + destruct (shutil_move w1 source dest) as [w2 ok].
      specialize (IH w2). destruct (move_files w2 plan) as [[evs r] w3].
      cbn [fst snd map] in *. destruct IH as (Hpl & Hpre & Hall). split_and!.
      * by destruct ok.
      * change (moves (Mkdir (path_parent dest) :: Move source dest :: _ :: evs))
          with ((source, dest) :: moves evs). by apply prefix_cons.
      * intros Hr. destruct (Hall Hr) as [Hm Hk].
        change (moves (Mkdir (path_parent dest) :: Move source dest :: _ :: evs))
          with ((source, dest) :: moves evs).
        change (mkdirs (Mkdir (path_parent dest) :: Move source dest :: _ :: evs))
          with (path_parent dest :: mkdirs evs).
        by rewrite Hm, Hk.
    + cbn [fst snd]. split_and!; [done | apply prefix_nil | done].
Qed.

Lemma planned_plan_lines (plan : list (path * path * string)) :
  planned (map (fun e => OPrint (OPlanned e.2 (name e.1.1))) plan)
  = map (fun e => (e.2, name e.1.1)) plan.
Proof. induction plan as [|e plan IH]; [done|]. cbn. by f_equal. Qed.

Lemma quiet_counts (stats : list (string * Z)) :
  planned (map (fun e => OPrint (OCount e.1 e.2)) stats) = [] /\
  moves (map (fun e => OPrint (OCount e.1 e.2)) stats) = [] /\
  mkdirs (map (fun e => OPrint (OCount e.1 e.2)) stats) = [].
Proof. induction stats as [|e stats IH]; [done | exact IH]. Qed.

Lemma quiet_plan_lines (plan : list (path * path * string)) :
  moves (map (fun e => OPrint (OPlanned e.2 (name e.1.1))) plan) = [] /\
  mkdirs (map (fun e => OPrint (OPlanned e.2 (name e.1.1))) plan) = [].
Proof. induction plan as [|e plan IH]; [done | exact IH]. Qed.

End OrganizerFacts.

Section OrganizerRuns.
Context `{Builtins} `{Pathlib}.
Implicit Types (w : world) (item dest : path) (evs : list org_event).

(** What a run of [organize_files] that returns has done. *)
Lemma organize_files_run fuel w dir (dry_run : bool) evs r w' :
  organize_files fuel w dir dry_run = Some (evs, r, w') ->
  (valid_root w dir = false /\ planned evs = [] /\ moves evs = [] /\ mkdirs evs = [] /\
   w' = w /\ r = Finished) \/
  (valid_root w dir = true /\
   exists plan stats,
     plan_items fuel w (resolve w dir) (iterdir w (resolve w dir)) ([], []) = Some (plan, stats) /\
     planned evs = map (fun e => (e.2, name e.1.1)) plan /\
     if dry_run
     then moves evs = [] /\ mkdirs evs = [] /\ w' = w /\ r = Finished
     else moves evs = moves (move_files w plan).1.1 /\
          mkdirs evs = mkdirs (move_files w plan).1.1 /\
          r = (move_files w plan).1.2 /\ w' = (move_files w plan).2).
Proof.
  unfold organize_files, valid_root.
  destruct (path_exists w (resolve w dir)); cbn [negb andb];
    [|intros [= <- <- <-]; by left].
  destruct (is_dir w (resolve w dir)); cbn [negb]; [|intros [= <- <- <-]; by left].
  destruct (plan_items _ _ _ _ _) as [[plan stats]|] eqn:Hplan; [|done].
  intros Hrun. right. split; [done|]. exists plan, stats. split; [done|].
  assert (forall pre post,
            planned (pre :: OPrint (OFound (len plan))
                     :: (map (fun e => OPrint (OPlanned e.2 (name e.1.1))) plan
                         ++ OPrint OSummary
                         :: map (fun e => OPrint (OCount e.1 e.2))
                              (merge_sort item_le stats))
                     ++ post)
            = planned [pre] ++ map (fun e => (e.2, name e.1.1)) plan ++ planned post /\
            moves (pre :: OPrint (OFound (len plan))
                     :: (map (fun e => OPrint (OPlanned e.2 (name e.1.1))) plan
                         ++ OPrint OSummary
                         :: map (fun e => OPrint (OCount e.1 e.2))
                              (merge_sort item_le stats))
                     ++ post)
            = moves [pre] ++ moves post /\
            mkdirs (pre :: OPrint (OFound (len plan))
                     :: (map (fun e => OPrint (OPlanned e.2 (name e.1.1))) plan
                         ++ OPrint OSummary
                         :: map (fun e => OPrint (OCount e.1 e.2))
                              (merge_sort item_le stats))
                     ++ post)
            = mkdirs [pre] ++ mkdirs post) as Hshape.
  { intros pre post.
    destruct (quiet_plan_lines plan) as [Hl1 Hl2].
    destruct (quiet_counts (merge_sort item_le stats)) as (Hc0 & Hc1 & Hc2).
    change (pre :: ?a :: (?l ++ ?b :: ?c) ++ post)
      with ([pre] ++ ([a] ++ l ++ [b] ++ c) ++ post).
    rewrite !planned_app, !moves_app, !mkdirs_app, planned_plan_lines,
      Hl1, Hl2, Hc0, Hc1, Hc2.
    cbn [planned moves mkdirs omap app]. by rewrite !app_nil_r. }
  destruct plan as [|e plan].
  { injection Hrun as <- <- <-. destruct dry_run; cbn; by repeat split;
      destruct (move_files w []) eqn:?. }
  remember (e :: plan) as pl eqn:Hpl. clear Hpl.
  destruct dry_run; cbn [negb] in Hrun.
  - injection Hrun as <- <- <-. cbn [app].
    destruct (Hshape (OPrint (OScanning true (resolve w dir))) [OPrint ODryRunNote])
      as (-> & -> & ->). cbn. by rewrite app_nil_r.
  - destruct (move_files_moves pl w) as (Hpl & _).
    destruct (move_files w pl) as [[evs1 r1] w1]. cbn [fst snd] in *.
    destruct r1; injection Hrun as <- <- <-; cbn [app].
    + destruct (Hshape (OPrint (OScanning false (resolve w dir)))
                  (OPrint OOrganizing :: evs1 ++ [OPrint OComplete])) as (-> & -> & ->).
      change (OPrint OOrganizing :: evs1 ++ [OPrint OComplete])
        with ([OPrint OOrganizing] ++ evs1 ++ [OPrint OComplete]).
      rewrite !planned_app, !moves_app, !mkdirs_app, Hpl. cbn. by rewrite !app_nil_r.
    + destruct (Hshape (OPrint (OScanning false (resolve w dir)))
                  (OPrint OOrganizing :: evs1)) as (-> & -> & ->).
      change (OPrint OOrganizing :: evs1) with ([OPrint OOrganizing] ++ evs1).
      rewrite !planned_app, !moves_app, !mkdirs_app, Hpl. cbn. by rewrite !app_nil_r.
Qed.


(** X16. A dry run changes nothing: it asks for no move and no [mkdir],
    leaves the files as they were and returns; on a valid directory the
    lines of its plan name exactly the entries that are neither
    directories nor dot-files, in the order of the listing, each with the
    category of its suffix. *)
Theorem dry_run_is_read_only fuel w dir evs r w' :
  organize_files fuel w dir true = Some (evs, r, w') ->
  moves evs = [] /\ mkdirs evs = [] /\ w' = w /\ r = Finished /\
  (valid_root w dir = true ->
   planned evs = map (fun item => (get_category (path_suffix item), name item))
                     (filter (visible w) (iterdir w (resolve w dir)))).
Proof.
  intros [(Hv & _ & -> & -> & -> & ->)|(Hv & plan & stats & Hplan & Hpl & Hrun)]%organize_files_run.
  { split_and!; [done..|congruence]. }
  destruct Hrun as (-> & -> & -> & ->). split_and!; [done..|]. intros _.
  apply plan_items_spec in Hplan as (added & -> & Hsrc & Hwell). cbn [fst app] in *.
  rewrite Hpl, <- Hsrc, map_map. clear Hsrc Hpl.
  induction Hwell as [|e added [Hcat _] _ IH]; [done|]. cbn [map]. by rewrite IH, Hcat.
Qed.

(** X17. Every move that is asked for goes to the first destination that
    did not exist when the directory was scanned: the entry's own name in
    the folder of its category, or else the first free one among the
    names numbered 1, 2, ... *)
Theorem destination_is_first_free fuel w dir (dry_run : bool) evs r w' source dest :
  organize_files fuel w dir dry_run = Some (evs, r, w') ->
  (source, dest) ∈ moves evs ->
  path_exists w dest = false /\
  first_free w (joinpath (resolve w dir) (get_category (path_suffix source)))
    (joinpath (joinpath (resolve w dir) (get_category (path_suffix source))) (name source))
    dest.
Proof.
  intros [(Hv & _ & -> & _)|(Hv & plan & stats & Hplan & _ & Hrun)]%organize_files_run Hin.
  { by apply elem_of_nil in Hin. }
  destruct dry_run.
  { destruct Hrun as (Hm & _). rewrite Hm in Hin. by apply elem_of_nil in Hin. }
  destruct Hrun as (Hm & _). rewrite Hm in Hin.
  apply plan_items_spec in Hplan as (added & -> & _ & Hwell). cbn [fst app] in *.
  destruct (move_files_moves added w) as (_ & Hpre & _).
  assert ((source, dest) ∈ map (fun e : path * path * string => (e.1.1, e.1.2)) added)
    as Hin'.
  { destruct Hpre as [rest ->]. apply elem_of_app. by left. }
  apply list_elem_of_fmap in Hin' as ([[s d] c] & [= -> ->] & He).
  rewrite Forall_forall in Hwell. destruct (Hwell _ He) as [Hcat Hfree].
  cbn [fst snd] in *. subst c. split; [apply Hfree | done].
Qed.

End OrganizerRuns.

(** ** The conflict loop ends *)

Section OrganizerTermination.
Context `{Builtins} `{Pathlib}.
Implicit Types (w : world) (item dest : path).

Lemma free_dest_more_fuel w dest_folder original_dest : forall fuel fuel' c d dest,
  free_dest fuel w dest_folder original_dest c d = Some dest -> (fuel <= fuel')%nat ->
  free_dest fuel' w dest_folder original_dest c d = Some dest.
Proof.
  induction fuel as [|fuel IH]; intros fuel' c d dest; cbn [free_dest]; [done|].
  intros Hrun Hle. destruct fuel' as [|fuel']; [lia|]. cbn [free_dest].
  destruct (path_exists w d); [|done]. apply (IH fuel'); [done | lia].
Qed.

Lemma plan_items_more_fuel w directory items : forall fuel fuel' acc r,
  plan_items fuel w directory items acc = Some r -> (fuel <= fuel')%nat ->
  plan_items fuel' w directory items acc = Some r.
Proof.
  induction items as [|item items IH]; intros fuel fuel' [plan stats] r; cbn [plan_items];
    [done|].
  unfold plan_item. destruct (is_dir w item || startswith (name item) ".").
  - apply IH.
  - destruct (free_dest fuel _ _ _ _ _) as [dest|] eqn:Hfree; [|done].
    intros Hrun Hle. rewrite (free_dest_more_fuel _ _ _ _ _ _ _ _ Hfree Hle).
    by apply (IH fuel).
Qed.

Lemma organize_files_more_fuel fuel fuel' w dir (dry_run : bool) r :
  organize_files fuel w dir dry_run = Some r -> (fuel <= fuel')%nat ->
  organize_files fuel' w dir dry_run = Some r.
Proof.
  unfold organize_files. intros Hrun Hle.
  destruct (negb (path_exists _ _)); [done|]. destruct (negb (is_dir _ _)); [done|].
  destruct (plan_items fuel _ _ _ _) as [acc|] eqn:Hplan; [|done].
  by rewrite (plan_items_more_fuel _ _ _ _ _ _ _ Hplan Hle).
Qed.

(** The loop ends when one of the next [m] numbered destinations is
    free. *)
Lemma free_dest_finds w dest_folder original_dest : forall (m fuel : nat) c d,
  (exists j, c <= j < c + Z.of_nat m /\
             path_exists w (tried_dest dest_folder original_dest j) = false) ->
  (S m <= fuel)%nat ->
  is_Some (free_dest fuel w dest_folder original_dest c d).
Proof.
  induction m as [|m IH]; intros fuel c d (j & Hj & Hfree) Hfuel; [lia|].
  destruct fuel as [|fuel]; [lia|]. cbn [free_dest].
  destruct (path_exists w d); [|by eexists].
  destruct (decide (j = c)) as [->|Hne].
  - destruct fuel as [|fuel]; [lia|]. cbn [free_dest].
    fold (tried_dest dest_folder original_dest c). rewrite Hfree. by eexists.
  - apply IH; [|lia]. exists j. split; [lia | done].
Qed.

(** Among more numbered destinations than there are files, one is free. *)
Lemma free_counter_exists w dest_folder original_dest :
  counters_distinct dest_folder original_dest ->
  exists j, 1 <= j < 1 + Z.of_nat (S (base.size (files w))) /\
            path_exists w (tried_dest dest_folder original_dest j) = false.
Proof.
  intros Hdist. set (n := S (base.size (files w))).
  destruct (decide (Forall (fun j => path_exists w (tried_dest dest_folder original_dest j)
                                      = true) (seqZ 1 (Z.of_nat n)))) as [Hall|Hnot].
  - exfalso.
    assert (NoDup (tried_dest dest_folder original_dest <$> seqZ 1 (Z.of_nat n))) as Hnd.
    { apply NoDup_fmap_2_strong; [|apply NoDup_seqZ].
      intros c1 c2 Hc1%elem_of_seqZ Hc2%elem_of_seqZ. apply Hdist; lia. }
    assert (forall p, p ∈ tried_dest dest_folder original_dest <$> seqZ 1 (Z.of_nat n) ->
                      p ∈ elements (dom (files w))) as Hsub.
    { intros p (j & -> & Hj)%list_elem_of_fmap. rewrite Forall_forall in Hall.
      specialize (Hall j Hj). unfold path_exists in Hall.
      apply bool_decide_eq_true in Hall. by apply elem_of_elements, elem_of_dom. }
    pose proof (submseteq_length _ _ (NoDup_submseteq _ _ Hnd Hsub)) as Hlen.
    rewrite length_fmap, length_seqZ in Hlen.
    change (length (elements (dom (files w)))) with (base.size (dom (files w))) in Hlen.
    rewrite size_dom in Hlen. subst n. lia.
  - apply not_Forall_Exists, Exists_exists in Hnot as (j & Hj%elem_of_seqZ & Hfree);
      [|apply _].
    exists j. split; [lia|]. cbn in Hfree. by destruct (path_exists w _).
Qed.

(** X18. The conflict loops end: when for every entry that is not
    skipped different counters give different destinations, a number of
    iterations of two more than there are files is enough for each loop,
    so [organize_files] returns, and more iterations do not change what
    it returns. *)
Theorem organize_files_terminates fuel w dir (dry_run : bool) :
  (forall item, item ∈ iterdir w (resolve w dir) -> visible w item ->
     counters_distinct
       (joinpath (resolve w dir) (get_category (path_suffix item)))
       (joinpath (joinpath (resolve w dir) (get_category (path_suffix item)))
          (name item))) ->
  (base.size (files w) + 2 <= fuel)%nat ->
  is_Some (organize_files fuel w dir dry_run) /\
  organize_files fuel w dir dry_run = organize_files (base.size (files w) + 2) w dir dry_run.
Proof.
  intros Hdist Hfuel.
  assert (is_Some (organize_files (base.size (files w) + 2) w dir dry_run)) as [r Hr].
  { unfold organize_files.
    destruct (negb (path_exists _ _)); [by eexists|].
    destruct (negb (is_dir _ _)); [by eexists|].
    assert (forall items acc,
              (forall item, item ∈ items -> item ∈ iterdir w (resolve w dir)) ->
              is_Some (plan_items (base.size (files w) + 2) w (resolve w dir) items acc))
      as Hplan.
    { induction items as [|item items IH]; intros [plan stats] Hsub; cbn [plan_items];
        [by eexists|].
      assert (forall acc', is_Some (plan_items (base.size (files w) + 2) w (resolve w dir)
                                      items acc')) as Hrest.
      { intros acc'. apply IH. intros x Hx. apply Hsub. by right. }
      unfold plan_item.
      destruct (is_dir w item || startswith (name item) ".") eqn:Hskip; [apply Hrest|].
      apply orb_false_elim in Hskip as [Hd Hn].
      destruct (free_dest_finds w
                  (joinpath (resolve w dir) (get_category (path_suffix item)))
                  (joinpath (joinpath (resolve w dir) (get_category (path_suffix item)))
                     (name item))
                  (S (base.size (files w))) (base.size (files w) + 2) 1
                  (joinpath (joinpath (resolve w dir) (get_category (path_suffix item)))
                     (name item))) as [dest ->]; [| lia | apply Hrest].
      apply free_counter_exists, Hdist; [apply Hsub; left | done]. }
    destruct (Hplan (iterdir w (resolve w dir)) ([], [])) as [[plan stats] ->]; [done|].
    destruct plan; [by eexists|]. destruct (negb dry_run); [|by eexists].
    destruct (move_files w _) as [[evs []] w']; by eexists. }
  rewrite Hr, (organize_files_more_fuel _ fuel _ _ _ _ Hr Hfuel). by split; [eexists|].
Qed.

End OrganizerTermination.

(** ** The sample path operations *)

Import SampleOrganizer.

Lemma append_length (a b : string) :
  String.length (a +:+ b) = (String.length a + String.length b)%nat.
Proof. induction a as [|c a IH]; simpl; [done | by rewrite IH]. Qed.

Lemma append_cancel_l (s a b : string) : s +:+ a = s +:+ b -> a = b.
Proof. induction s as [|c s IH]; simpl; [done|]. intros [= ?]. auto. Qed.

Lemma append_cancel_r (s : string) : forall a b, a +:+ s = b +:+ s -> a = b.
Proof.
  induction a as [|c a IH]; intros [|c' b]; simpl; intros Heq.
  - done.
  - apply (f_equal String.length) in Heq. simpl in Heq.
    rewrite !append_length in Heq. simpl in Heq. lia.
  - apply (f_equal String.length) in Heq. simpl in Heq.
    rewrite !append_length in Heq. simpl in Heq. lia.
  - injection Heq as -> Heq. f_equal. by apply IH.
Qed.

Lemma sample_counters_distinct (dest_folder original_dest : string) :
  counters_distinct dest_folder original_dest.
Proof.
  intros c1 c2 _ _. unfold tried_dest, conflict_name. cbn [joinpath path_stem path_suffix
    str_of_int SampleOrganizer.pathlib].
  intros Heq. do 4 apply append_cancel_l in Heq. apply append_cancel_r in Heq.
  apply (f_equal NilEmpty.int_of_string) in Heq. rewrite !NilEmpty.isi in Heq.
  injection Heq as Heq. apply (f_equal Z.of_int) in Heq.
  by rewrite !DecimalZ.of_to in Heq.
Qed.


Lemma dry_run_is_read_only_witness :
  exists evs r w',
    organize_files 10 downloads_top "/d" true = Some (evs, r, w') /\
    moves evs = [] /\ mkdirs evs = [] /\ w' = downloads_top.
Proof.
  destruct (organize_files 10 downloads_top "/d" true) as [[[evs r] w']|] eqn:Hrun;
    [|vm_compute in Hrun; discriminate].
  exists evs, r, w'. split; [reflexivity|].
  destruct (dry_run_is_read_only 10 downloads_top "/d" evs r w' Hrun) as (Hm & Hk & Hw & _).
  exact (conj Hm (conj Hk Hw)).
Defined.

Lemma destination_is_first_free_witness :
  path_exists downloads_top "/d/Documents/notes_2.txt" = false.
Proof.
  destruct (organize_files 10 downloads_top "/d" false) as [[[evs r] w']|] eqn:Hrun;
    [|vm_compute in Hrun; discriminate].
  assert (("/d/notes.txt", "/d/Documents/notes_2.txt") ∈ moves evs) as Hin.
  { vm_compute in Hrun. injection Hrun as <- _ _. vm_compute. right. left. }
  exact (proj1 (destination_is_first_free 10 downloads_top "/d" false evs r w'
                  "/d/notes.txt" "/d/Documents/notes_2.txt" Hrun Hin)).
Defined.

Lemma organize_files_terminates_witness :
  is_Some (organize_files 9 downloads_top "/d" false).
Proof.
  assert (forall item, item ∈ iterdir downloads_top (resolve downloads_top "/d") ->
            visible downloads_top item ->
            counters_distinct
              (joinpath (resolve downloads_top "/d") (get_category (path_suffix item)))
              (joinpath (joinpath (resolve downloads_top "/d")
                           (get_category (path_suffix item))) (name item))) as Hdist
    by (intros item _ _; apply sample_counters_distinct).
  assert (base.size (files downloads_top) + 2 <= 9)%nat as Hfuel by (vm_compute; lia).
  exact (proj1 (organize_files_terminates 9 downloads_top "/d" false Hdist Hfuel)).
Defined.

(** ** The summary of [organize_files] *)

Section OrganizerSummary.
Context `{Builtins} `{Pathlib}.
Implicit Types (w : world) (evs : list org_event) (stats : list (string * Z)).

Lemma di_get_incr k0 k stats :
  di_get k0 (di_incr k stats) =
  if decide (k0 = k) then Some (default 0 (di_get k stats) + 1) else di_get k0 stats.
Proof.
  induction stats as [|[k' n] stats IH]; cbn [di_incr di_get].
  - by destruct (decide (k0 = k)).
  - destruct (decide (k = k')) as [->|Hkk']; cbn [di_get].
    + by destruct (decide (k0 = k')).
    + destruct (decide (k0 = k')) as [->|Hne]; [by rewrite decide_False|]. exact IH.
Qed.

Lemma di_incr_keys k stats :
  (di_incr k stats).*1 = if decide (k ∈ stats.*1) then stats.*1 else stats.*1 ++ [k].
Proof.
  induction stats as [|[k' n] stats IH]; [done|]. cbn [di_incr].
  destruct (decide (k = k')) as [->|Hne]; rewrite !fmap_cons; cbn [fst].
  - rewrite decide_True; [done | left].
  - rewrite IH. destruct (decide (k ∈ stats.*1)) as [Hin|Hin].
    + rewrite decide_True; [done | by right].
    + rewrite decide_False; [done|]. intros [?|?]%elem_of_cons; congruence.
Qed.

Lemma di_get_elem stats k n : NoDup stats.*1 -> (k, n) ∈ stats <-> di_get k stats = Some n.
Proof.
  induction stats as [|[k' n'] stats IH]; intros Hnd; cbn [di_get].
  - split; [by intros ?%elem_of_nil | done].
  - rewrite fmap_cons in Hnd. apply NoDup_cons in Hnd as [Hk' Hnd]. simpl in Hk'.
    rewrite elem_of_cons, (IH Hnd). destruct (decide (k = k')) as [->|Hne].
    + split.
      * intros [[= ->]|Hget]; [done|]. exfalso. apply Hk'.
        apply list_elem_of_fmap. exists (k', n). split; [done|]. by apply IH.
      * intros [= ->]. by left.
    + split; [intros [[= -> ->]|?]; done | by right].
Qed.

Lemma tallied_step categories stats k :
  tallied categories stats -> tallied (categories ++ [k]) (di_incr k stats).
Proof.
  intros [Hnd Hget]. split.
  - rewrite di_incr_keys. case_decide as Hin; [done|].
    apply NoDup_app. split_and!; [done | | apply NoDup_singleton].
    intros x Hx ->%list_elem_of_singleton. done.
  - intros k0. rewrite di_get_incr. unfold occurrences in *. rewrite filter_app.
    unfold len in *. rewrite length_app.
    destruct (decide (k0 = k)) as [->|Hne].
    + rewrite filter_cons_True, filter_nil by done. rewrite Hget.
      rewrite (decide_False (P := Z.of_nat (_ + length [k]) = 0)) by (simpl; lia).
      destruct (decide _) as [Hz|Hnz]; simpl; f_equal; lia.
    + rewrite filter_cons_False, filter_nil by congruence. simpl length.
      rewrite Nat.add_0_r. apply Hget.
Qed.

Lemma plan_items_tallied fuel w directory items :
  forall (acc : list (path * path * string) * list (string * Z)) plan stats,
  plan_items fuel w directory items acc = Some (plan, stats) ->
  tallied (map snd acc.1) acc.2 -> tallied (map snd plan) stats.
Proof.
  induction items as [|item items IH]; intros [plan0 stats0] plan stats; cbn [plan_items].
  - by intros [= <- <-].
  - unfold plan_item. destruct (is_dir w item || startswith (name item) ".").
    + apply IH.
    + destruct (free_dest _ _ _ _ _ _) as [dest|]; [|done].
      intros Hrun Htal. apply (IH _ _ _ Hrun). cbn [fst snd] in *.
      rewrite map_app. by apply tallied_step.
Qed.

Lemma counts_app evs1 evs2 : counts (evs1 ++ evs2) = counts evs1 ++ counts evs2.
Proof. apply omap_app. Qed.

Lemma counts_lines stats :
  counts (map (fun e => OPrint (OCount e.1 e.2)) stats) = stats.
Proof. induction stats as [|[c n] stats IH]; [done|]. cbn. by f_equal. Qed.

Lemma counts_plan_lines (plan : list (path * path * string)) :
  counts (map (fun e => OPrint (OPlanned e.2 (name e.1.1))) plan) = [].
Proof. induction plan as [|e plan IH]; [done | exact IH]. Qed.

Lemma counts_move_files (plan : list (path * path * string)) : forall w,
  counts (move_files w plan).1.1 = [].
Proof.
  induction plan as [|[[source dest] category] plan IH]; intros w; cbn [move_files]; [done|].
  destruct (mkdir_exist_ok w (path_parent dest)) as [w1|]; [|done].
  destruct (shutil_move w1 source dest) as [w2 ok].
  specialize (IH w2). destruct (move_files w2 plan) as [[evs r] w3]. cbn [fst] in *.
  by destruct ok.
Qed.

(** The summary and the plan of a run that returns. *)
Lemma organize_files_summary fuel w dir (dry_run : bool) evs r w' :
  organize_files fuel w dir dry_run = Some (evs, r, w') ->
  exists (plan : list (path * path * string)) stats,
    tallied (map snd plan) stats /\
    planned evs = map (fun e => (e.2, name e.1.1)) plan /\
    counts evs = merge_sort item_le stats.
Proof.
  unfold organize_files.
  destruct (negb (path_exists w (resolve w dir)));
    [intros [= <- <- <-]; exists [], []; by repeat split; try constructor|].
  destruct (negb (is_dir w (resolve w dir)));
    [intros [= <- <- <-]; exists [], []; by repeat split; try constructor|].
  destruct (plan_items _ _ _ _ _) as [[plan stats]|] eqn:Hplan; [|done].
  assert (tallied (map snd plan) stats) as Htal.
  { apply (plan_items_tallied _ _ _ _ _ _ _ Hplan). by split; [constructor|]. }
  intros Hrun. exists plan, stats. split; [done|].
  assert (forall pre post,
            planned (pre :: OPrint (OFound (len plan))
                     :: (map (fun e => OPrint (OPlanned e.2 (name e.1.1))) plan
                         ++ OPrint OSummary
                         :: map (fun e => OPrint (OCount e.1 e.2))
                              (merge_sort item_le stats))
                     ++ post)
            = planned [pre] ++ map (fun e => (e.2, name e.1.1)) plan ++ planned post /\
            counts (pre :: OPrint (OFound (len plan))
                     :: (map (fun e => OPrint (OPlanned e.2 (name e.1.1))) plan
                         ++ OPrint OSummary
                         :: map (fun e => OPrint (OCount e.1 e.2))
                              (merge_sort item_le stats))
                     ++ post)
            = counts [pre] ++ merge_sort item_le stats ++ counts post) as Hshape.
  { intros pre post.
    destruct (quiet_counts (merge_sort item_le stats)) as (Hc0 & _).
    change (pre :: ?a :: (?l ++ ?b :: ?c) ++ post)
      with ([pre] ++ ([a] ++ l ++ [b] ++ c) ++ post).
    rewrite !planned_app, !counts_app, planned_plan_lines, counts_plan_lines,
      counts_lines, Hc0.
    cbn [planned counts omap app]. by rewrite !app_nil_r. }
  destruct plan as [|e plan].
  { injection Hrun as <- <- <-. destruct Htal as [_ Hget].
    destruct stats as [|[k n] stats]; [done|].
    specialize (Hget k). cbn in Hget. by rewrite decide_True in Hget. }
  remember (e :: plan) as pl eqn:Hpl. clear Hpl.
  destruct dry_run; cbn [negb] in Hrun.
  - injection Hrun as <- <- <-. cbn [app].
    destruct (Hshape (OPrint (OScanning true (resolve w dir))) [OPrint ODryRunNote])
      as (-> & ->). cbn. by rewrite !app_nil_r.
  - destruct (move_files_moves pl w) as (Hpl & _).
    pose proof (counts_move_files pl w) as Hcm.
    destruct (move_files w pl) as [[evs1 r1] w1]. cbn [fst snd] in *.
    destruct r1; injection Hrun as <- <- <-; cbn [app].
    + destruct (Hshape (OPrint (OScanning false (resolve w dir)))
                  (OPrint OOrganizing :: evs1 ++ [OPrint OComplete])) as (-> & ->).
      change (OPrint OOrganizing :: evs1 ++ [OPrint OComplete])
        with ([OPrint OOrganizing] ++ evs1 ++ [OPrint OComplete]).
      rewrite !planned_app, !counts_app, Hpl, Hcm. cbn. by rewrite !app_nil_r.
    + destruct (Hshape (OPrint (OScanning false (resolve w dir)))
                  (OPrint OOrganizing :: evs1)) as (-> & ->).
      change (OPrint OOrganizing :: evs1) with ([OPrint OOrganizing] ++ evs1).
      rewrite !planned_app, !counts_app, Hpl, Hcm. cbn. by rewrite !app_nil_r.
Qed.

#[local] Instance item_le_total : Total item_le.
Proof.
  intros [c1 n1] [c2 n2]. unfold item_le. cbn [fst snd].
  destruct (decide (c1 = c2)) as [->|Hne].
  - destruct (Z.le_ge_cases n1 n2); [left | right]; (split; [done | intros _; lia]).
  - destruct (total String.le c1 c2); [left | right]; (split; [done | congruence]).
Qed.

(** X19. The summary of a run that returns has one line for every
    category that a planned file has, with the number of planned files of
    that category, and no other line; the lines are in the order of
    [sorted], by category. *)
Theorem summary_counts_plan fuel w dir (dry_run : bool) evs r w' :
  organize_files fuel w dir dry_run = Some (evs, r, w') ->
  Sorted item_le (counts evs) /\
  NoDup (counts evs).*1 /\
  forall c n, (c, n) ∈ counts evs <->
              0 < n /\ n = len (filter (fun e => e.1 = c) (planned evs)).
Proof.
  intros (plan & stats & [Hnd Hget] & -> & ->)%organize_files_summary.
  split_and!.
  - apply Sorted_merge_sort. apply _.
  - by rewrite merge_sort_Permutation.
  - intros c n. rewrite merge_sort_Permutation, (di_get_elem _ _ _ Hnd), Hget.
    unfold occurrences, len.
    assert (length (filter (fun k => k = c) (map snd plan))
            = length (filter (fun e : string * string => e.1 = c)
                        (map (fun e : path * path * string => (e.2, name e.1.1)) plan)))
      as <-.
    { clear. induction plan as [|e plan IH]; [done|]. cbn [map].
      destruct (decide (e.2 = c)) as [He|He].
      - rewrite !filter_cons_True by done. cbn [length]. by rewrite IH.
      - by rewrite !filter_cons_False by done. }
    destruct (decide _) as [Hz|Hnz]; split.
    + done.
    + intros [? ->]. lia.
    + intros [= <-]. split; [lia | done].
    + by intros [_ ->].
Qed.

End OrganizerSummary.

Lemma summary_counts_plan_witness :
  exists evs r w',
    organize_files 10 downloads_top "/d" true = Some (evs, r, w') /\
    Sorted item_le (counts evs).
Proof.
  destruct (organize_files 10 downloads_top "/d" true) as [[[evs r] w']|] eqn:Hrun;
    [|vm_compute in Hrun; discriminate].
  exists evs, r, w'. split; [reflexivity|].
  exact (proj1 (summary_counts_plan 10 downloads_top "/d" true evs r w' Hrun)).
Defined.
